(** * tensorrec loss graphs

    A shallow embedding of [tensorrec/loss_graphs.py]: the five loss
    classes ([RMSELossGraph], [RMSEDenseLossGraph], [SeparationLossGraph],
    [WMRBLossGraph], [WMRBAlignmentLossGraph]) and the TensorFlow operations
    they are built from.

    Arithmetic is idealised: a float32 scalar is an exact real number or
    one of the IEEE special values (the two infinities and NaN).  Rounding
    and signed zeros are not modelled.  An operation that raises in
    TensorFlow (incompatible shapes, an index outside a tensor) returns
    [None]. *)

From Stdlib Require Import Reals Lra Lia List Bool Arith.
From Stdlib Require String.
Import ListNotations.
Open Scope R_scope.

(** ** Failure of a TensorFlow operation *)

Definition bind {A B : Type} (c : option A) (k : A -> option B) : option B :=
  match c with
  | Some a => k a
  | None => None
  end.

Notation "x <- c ;; k" := (bind c (fun x => k))
  (at level 61, c at next level, right associativity).

(** ** Scalars *)

Module TF.

Inductive tfloat : Type :=
| Fin (r : R)
| PInf
| NInf
| NaN.

(** Sign of a real, as the special-value rules of multiplication and
    division need it. *)
Inductive sign := Neg | Zero | Pos.

Definition Rsign (x : R) : sign :=
  match total_order_T x 0 with
  | inleft (left _) => Neg
  | inleft (right _) => Zero
  | inright _ => Pos
  end.

Definition f_neg (a : tfloat) : tfloat :=
  match a with
  | Fin x => Fin (- x)
  | PInf => NInf
  | NInf => PInf
  | NaN => NaN
  end.

Definition f_add (a b : tfloat) : tfloat :=
  match a, b with
  | NaN, _ | _, NaN => NaN
  | Fin x, Fin y => Fin (x + y)
  | PInf, NInf | NInf, PInf => NaN
  | PInf, _ | _, PInf => PInf
  | NInf, _ | _, NInf => NInf
  end.

Definition f_sub (a b : tfloat) : tfloat := f_add a (f_neg b).

(** An infinity scaled by a sign. *)
Definition signed_inf (s : sign) (positive : bool) : tfloat :=
  match s with
  | Zero => NaN
  | Pos => if positive then PInf else NInf
  | Neg => if positive then NInf else PInf
  end.

Definition f_mul (a b : tfloat) : tfloat :=
  match a, b with
  | NaN, _ | _, NaN => NaN
  | Fin x, Fin y => Fin (x * y)
  | Fin x, PInf | PInf, Fin x => signed_inf (Rsign x) true
  | Fin x, NInf | NInf, Fin x => signed_inf (Rsign x) false
  | PInf, PInf | NInf, NInf => PInf
  | PInf, NInf | NInf, PInf => NInf
  end.

(** [x / 0] is an infinity of the sign of [x], and [0 / 0] is NaN. *)
Definition f_div (a b : tfloat) : tfloat :=
  match a, b with
  | NaN, _ | _, NaN => NaN
  | Fin x, Fin y =>
      match Rsign y with
      | Zero => signed_inf (Rsign x) true
      | _ => Fin (x / y)
      end
  | Fin _, _ => Fin 0
  | PInf, Fin y => match Rsign y with Neg => NInf | _ => PInf end
  | NInf, Fin y => match Rsign y with Neg => PInf | _ => NInf end
  | _, _ => NaN
  end.

Definition f_sqrt (a : tfloat) : tfloat :=
  match a with
  | Fin x => match Rsign x with Neg => NaN | _ => Fin (sqrt x) end
  | PInf => PInf
  | _ => NaN
  end.

Definition f_square (a : tfloat) : tfloat := f_mul a a.

(** Comparisons are false as soon as one side is NaN. *)
Definition f_gt (a b : tfloat) : bool :=
  match a, b with
  | NaN, _ | _, NaN => false
  | Fin x, Fin y => if Rlt_dec y x then true else false
  | PInf, PInf => false
  | PInf, _ => true
  | Fin _, NInf => true
  | _, _ => false
  end.

Definition f_le (a b : tfloat) : bool :=
  match a, b with
  | NaN, _ | _, NaN => false
  | Fin x, Fin y => if Rle_dec x y then true else false
  | NInf, _ => true
  | _, PInf => true
  | _, _ => false
  end.

(** *** The standard normal distribution function *)

Definition gauss (t : R) : R := exp (- (t * t) / 2).

Definition gauss_integrable (a b : R) : Riemann_integrable gauss a b.
Proof.
  assert (Hc : continuity gauss) by (unfold gauss; reg).
  destruct (Rle_dec a b) as [Hab | Hab].
  - apply continuity_implies_RiemannInt; [exact Hab |].
    intros x _. apply Hc.
  - apply RiemannInt_P1.
    apply continuity_implies_RiemannInt; [lra |].
    intros x _. apply Hc.
Qed.

Definition Phi (x : R) : R :=
  1 / 2 + / sqrt (2 * PI) * RiemannInt (gauss_integrable 0 x).

Definition ndtr (z : tfloat) : tfloat :=
  match z with
  | Fin x => Fin (Phi x)
  | PInf => Fin 1
  | NInf => Fin 0
  | NaN => NaN
  end.

(** ** Tensors *)

(** A rank-1 tensor ([tf_prediction_serial], [tf_interactions_serial]). *)
Definition Tensor1 := list tfloat.

(** A dense rank-2 tensor of shape [[length rows, n_cols]], row by row. *)
Record DenseTensor : Type := mkDense {
  n_cols : nat;
  rows : list (list tfloat)
}.

Definition n_rows (t : DenseTensor) : nat := length (rows t).

Definition well_shaped (t : DenseTensor) : Prop :=
  Forall (fun r => length r = n_cols t) (rows t).

(** [tf.SparseTensor]: one row of [indices] per stored entry of [values]. *)
Record SparseTensor : Type := mkSparse {
  indices : list (nat * nat);
  values : list tfloat;
  dense_shape : nat * nat
}.

(** ** Operations *)

Fixpoint zip_with {A B C : Type} (f : A -> B -> C) (a : list A) (b : list B)
  : list C :=
  match a, b with
  | x :: a', y :: b' => f x y :: zip_with f a' b'
  | _, _ => []
  end.

(** Element-wise binary operation on rank-1 tensors, with broadcasting of
    a tensor of one element; other shapes are incompatible. *)
Definition broadcast (f : tfloat -> tfloat -> tfloat) (a b : Tensor1)
  : option Tensor1 :=
  if Nat.eqb (length a) (length b) then Some (zip_with f a b)
  else match a, b with
       | [x], _ => Some (map (f x) b)
       | _, [y] => Some (map (fun x => f x y) a)
       | _, _ => None
       end.

Definition sub : Tensor1 -> Tensor1 -> option Tensor1 := broadcast f_sub.
Definition add : Tensor1 -> Tensor1 -> option Tensor1 := broadcast f_add.

Definition square (t : Tensor1) : Tensor1 := map f_square t.

Definition reduce_sum (t : Tensor1) : tfloat := fold_right f_add (Fin 0) t.

(** The mean of no element is [0 / 0]. *)
Definition reduce_mean (t : Tensor1) : tfloat :=
  f_div (reduce_sum t) (Fin (INR (length t))).

Definition greater (t : Tensor1) (c : tfloat) : list bool :=
  map (fun x => f_gt x c) t.

Definition less_equal (t : Tensor1) (c : tfloat) : list bool :=
  map (fun x => f_le x c) t.

(** [tf.boolean_mask]: the mask has the length of the tensor's first
    dimension. *)
Fixpoint boolean_mask {A : Type} (t : list A) (mask : list bool)
  : option (list A) :=
  match t, mask with
  | [], [] => Some []
  | x :: t', b :: mask' =>
      r <- boolean_mask t' mask' ;;
      Some (if b then x :: r else r)
  | _, _ => None
  end.

(** [tf.nn.moments(x, axes=[0])] of a rank-1 tensor: the mean, and the mean
    of the squared differences to it. *)
Definition moments (x : Tensor1) : tfloat * tfloat :=
  let mean := reduce_mean x in
  let variance := reduce_mean (map (fun v => f_square (f_sub v mean)) x) in
  (mean, variance).

(** [tf.contrib.distributions.Normal]. *)
Record Normal : Type := mkNormal { loc : tfloat; scale : tfloat }.

Definition cdf (d : Normal) (x : tfloat) : tfloat :=
  ndtr (f_div (f_sub x (loc d)) (scale d)).

(** Dense rank-2 operations. *)

Definition flatten (t : DenseTensor) : Tensor1 := concat (rows t).

Definition scalar_mul_dense (c : tfloat) (t : DenseTensor) : DenseTensor :=
  mkDense (n_cols t) (map (map (f_mul c)) (rows t)).

Definition square_dense (t : DenseTensor) : DenseTensor :=
  mkDense (n_cols t) (map (map f_square) (rows t)).

Definition reduce_mean_dense (t : DenseTensor) : tfloat :=
  reduce_mean (flatten t).

(** [tf.reduce_sum(t, axis=1)]. *)
Definition reduce_sum_axis1 (t : DenseTensor) : Tensor1 :=
  map reduce_sum (rows t).

Definition entry (t : DenseTensor) (ij : nat * nat) : option tfloat :=
  r <- nth_error (rows t) (fst ij) ;; nth_error r (snd ij).

Fixpoint traverse {A B : Type} (f : A -> option B) (l : list A)
  : option (list B) :=
  match l with
  | [] => Some []
  | x :: l' => y <- f x ;; ys <- traverse f l' ;; Some (y :: ys)
  end.

(** [tf.gather_nd] with indices of shape [[n, 2]] into a rank-2 tensor. *)
Definition gather_nd (t : DenseTensor) (idx : list (nat * nat))
  : option Tensor1 :=
  traverse (entry t) idx.

(** [tf.gather] into a rank-1 tensor. *)
Definition gather (params : Tensor1) (idx : list nat) : option Tensor1 :=
  traverse (nth_error params) idx.

(** A rank-0 tensor broadcasts against any rank-1 tensor. *)
Definition scalar_mul (c : tfloat) (t : Tensor1) : Tensor1 := map (f_mul c) t.
Definition scalar_sub (c : tfloat) (t : Tensor1) : Tensor1 := map (f_sub c) t.
Definition add_scalar (t : Tensor1) (c : tfloat) : Tensor1 :=
  map (fun x => f_add x c) t.

(** [tf.transpose(idx)[0]] for [idx] of shape [[n, 2]]. *)
Definition transpose_0 (idx : list (nat * nat)) : list nat := map fst idx.

(** Replace the element at a position, when there is one. *)
Fixpoint update_nth {A : Type} (f : A -> option A) (n : nat) (l : list A)
  : option (list A) :=
  match l, n with
  | [], _ => None
  | x :: l', O => y <- f x ;; Some (y :: l')
  | x :: l', S n' => r <- update_nth f n' l' ;; Some (x :: r)
  end.

Definition update_entry {A : Type} (f : A -> A) (ij : nat * nat)
  (rs : list (list A)) : option (list (list A)) :=
  update_nth (update_nth (fun x => Some (f x)) (snd ij)) (fst ij) rs.

(** Combine every listed value into the entry at its index, in order; an
    index outside the matrix is an error. *)
Fixpoint scatter {A : Type} (op : A -> A -> A) (rs : list (list A))
  (entries : list ((nat * nat) * A)) : option (list (list A)) :=
  match entries with
  | [] => Some rs
  | (ij, v) :: entries' =>
      rs' <- update_entry (fun x => op x v) ij rs ;;
      scatter op rs' entries'
  end.

Definition scatter_add := @scatter tfloat f_add.

(** [tf.sparse_add] of a sparse and a dense tensor of the same shape. *)
Definition sparse_add (a : SparseTensor) (b : DenseTensor)
  : option DenseTensor :=
  if negb (Nat.eqb (length (indices a)) (length (values a))) then None
  else if negb (Nat.eqb (fst (dense_shape a)) (n_rows b)
                && Nat.eqb (snd (dense_shape a)) (n_cols b)) then None
  else rs <- scatter_add (rows b) (combine (indices a) (values a)) ;;
       Some (mkDense (n_cols b) rs).

End TF.

Import TF.

(** ** The nodes of the graph a loss can consume *)

Module Nodes.

Record t : Type := mk {
  tf_prediction_serial : Tensor1;
  tf_interactions_serial : Tensor1;
  tf_prediction : DenseTensor;
  tf_interactions : SparseTensor;
  tf_rankings : DenseTensor;
  tf_alignment : DenseTensor;
  tf_sample_predictions : DenseTensor;
  tf_sample_alignments : DenseTensor
}.

Inductive name : Type :=
| prediction_serial
| interactions_serial
| prediction
| interactions
| rankings
| alignment
| sample_predictions
| sample_alignments.

Definition name_eqb (a b : name) : bool :=
  match a, b with
  | prediction_serial, prediction_serial
  | interactions_serial, interactions_serial
  | prediction, prediction
  | interactions, interactions
  | rankings, rankings
  | alignment, alignment
  | sample_predictions, sample_predictions
  | sample_alignments, sample_alignments => true
  | _, _ => false
  end.

Inductive arg : Type :=
| Serial (x : Tensor1)
| Dense (x : DenseTensor)
| Sparse (x : SparseTensor).

Definition get (n : t) (k : name) : arg :=
  match k with
  | prediction_serial => Serial (tf_prediction_serial n)
  | interactions_serial => Serial (tf_interactions_serial n)
  | prediction => Dense (tf_prediction n)
  | interactions => Sparse (tf_interactions n)
  | rankings => Dense (tf_rankings n)
  | alignment => Dense (tf_alignment n)
  | sample_predictions => Dense (tf_sample_predictions n)
  | sample_alignments => Dense (tf_sample_alignments n)
  end.

Definition all_names : list name :=
  [prediction_serial; interactions_serial; prediction; interactions;
   rankings; alignment; sample_predictions; sample_alignments].

End Nodes.

(** The keyword arguments a signature does not name end up in its
    catch-all [**kwargs]. *)
Definition Kwargs := list (Nodes.name * Nodes.arg).

Definition rest (named : list Nodes.name) (n : Nodes.t) : Kwargs :=
  map (fun k => (k, Nodes.get n k))
      (filter (fun k => negb (existsb (Nodes.name_eqb k) named))
              Nodes.all_names).

Inductive LossValue : Type :=
| Scalar (x : tfloat)
| PerSample (x : Tensor1).

(** ** The loss classes *)

(** A loss class: its two flags, the parameters its [loss_graph] names,
    and the call of [loss_graph] that hands it every node by keyword. *)
Record AbstractLossGraph : Type := mkLossGraph {
  is_dense : bool;
  is_sample_based : bool;
  named : list Nodes.name;
  call : Nodes.t -> option LossValue
}.

Module RMSELossGraph.

Definition loss_graph (tf_prediction_serial tf_interactions_serial : Tensor1)
  (kwargs : Kwargs) : option tfloat :=
  d <- sub tf_interactions_serial tf_prediction_serial ;;
  Some (f_sqrt (reduce_mean (square d))).

Definition named := [Nodes.prediction_serial; Nodes.interactions_serial].

Definition self : AbstractLossGraph :=
  mkLossGraph false false named
    (fun n =>
       x <- loss_graph (Nodes.tf_prediction_serial n)
                       (Nodes.tf_interactions_serial n) (rest named n) ;;
       Some (Scalar x)).

End RMSELossGraph.

Module RMSEDenseLossGraph.

Definition loss_graph (tf_interactions : SparseTensor)
  (tf_prediction : DenseTensor) (kwargs : Kwargs) : option tfloat :=
  error <- sparse_add tf_interactions
                      (scalar_mul_dense (Fin (-1)) tf_prediction) ;;
  Some (f_sqrt (reduce_mean_dense (square_dense error))).

Definition named := [Nodes.interactions; Nodes.prediction].

Definition self : AbstractLossGraph :=
  mkLossGraph true false named
    (fun n =>
       x <- loss_graph (Nodes.tf_interactions n) (Nodes.tf_prediction n)
                       (rest named n) ;;
       Some (Scalar x)).

End RMSEDenseLossGraph.

Module SeparationLossGraph.

Definition loss_graph (tf_prediction_serial tf_interactions_serial : Tensor1)
  (kwargs : Kwargs) : option tfloat :=
  let tf_positive_mask := greater tf_interactions_serial (Fin 0) in
  let tf_negative_mask := less_equal tf_interactions_serial (Fin 0) in
  tf_positive_predictions <-
    boolean_mask tf_prediction_serial tf_positive_mask ;;
  tf_negative_predictions <-
    boolean_mask tf_prediction_serial tf_negative_mask ;;
  let '(tf_pos_mean, tf_pos_var) := moments tf_positive_predictions in
  let '(tf_neg_mean, tf_neg_var) := moments tf_negative_predictions in
  let tf_overlap_distribution :=
    mkNormal (f_sub tf_neg_mean tf_pos_mean)
             (f_sqrt (f_add tf_neg_var tf_pos_var)) in
  let loss := f_sub (Fin 1) (cdf tf_overlap_distribution (Fin 0)) in
  Some loss.

Definition named := [Nodes.prediction_serial; Nodes.interactions_serial].

Definition self : AbstractLossGraph :=
  mkLossGraph false false named
    (fun n =>
       x <- loss_graph (Nodes.tf_prediction_serial n)
                       (Nodes.tf_interactions_serial n) (rest named n) ;;
       Some (Scalar x)).

End SeparationLossGraph.

Module WMRBLossGraph.

Definition loss_graph (tf_prediction : DenseTensor)
  (tf_interactions : SparseTensor) (tf_sample_predictions : DenseTensor)
  (kwargs : Kwargs) : option Tensor1 :=
  let positive_interaction_mask := greater (values tf_interactions) (Fin 0) in
  positive_interaction_indices <-
    boolean_mask (indices tf_interactions) positive_interaction_mask ;;
  positive_predictions <-
    gather_nd tf_prediction positive_interaction_indices ;;
  let n_sampled_items := Fin (INR (n_cols tf_sample_predictions)) in
  let predictions_sum_per_user := reduce_sum_axis1 tf_sample_predictions in
  mapped_predictions_sum_per_user <-
    gather predictions_sum_per_user
           (transpose_0 positive_interaction_indices) ;;
  let irrelevant_item_indicator := n_sampled_items in
  s <- add (scalar_sub n_sampled_items
                       (scalar_mul n_sampled_items positive_predictions))
           mapped_predictions_sum_per_user ;;
  let sampled_margin_rank := add_scalar s irrelevant_item_indicator in
  Some sampled_margin_rank.

Definition named :=
  [Nodes.prediction; Nodes.interactions; Nodes.sample_predictions].

Definition self : AbstractLossGraph :=
  mkLossGraph true true named
    (fun n =>
       x <- loss_graph (Nodes.tf_prediction n) (Nodes.tf_interactions n)
                       (Nodes.tf_sample_predictions n) (rest named n) ;;
       Some (PerSample x)).

End WMRBLossGraph.

Module WMRBAlignmentLossGraph.

(** The call to [super().loss_graph] passes the three tensors by keyword
    and nothing else. *)
Definition loss_graph (tf_alignment : DenseTensor)
  (tf_interactions : SparseTensor) (tf_sample_alignments : DenseTensor)
  (kwargs : Kwargs) : option Tensor1 :=
  WMRBLossGraph.loss_graph tf_alignment tf_interactions tf_sample_alignments
                           [].

Definition named :=
  [Nodes.alignment; Nodes.interactions; Nodes.sample_alignments].

Definition self : AbstractLossGraph :=
  mkLossGraph (is_dense WMRBLossGraph.self)
              (is_sample_based WMRBLossGraph.self) named
    (fun n =>
       x <- loss_graph (Nodes.tf_alignment n) (Nodes.tf_interactions n)
                       (Nodes.tf_sample_alignments n) (rest named n) ;;
       Some (PerSample x)).

End WMRBAlignmentLossGraph.

Definition loss_classes : list AbstractLossGraph :=
  [RMSELossGraph.self; RMSEDenseLossGraph.self; SeparationLossGraph.self;
   WMRBLossGraph.self; WMRBAlignmentLossGraph.self].

(** ** Tensors of real numbers *)

Definition of_reals (l : list R) : Tensor1 := map Fin l.

Definition dense_of_reals (c : nat) (rs : list (list R)) : DenseTensor :=
  mkDense c (map of_reals rs).

Definition sparse_of_reals (idx : list (nat * nat)) (vals : list R)
  (shape : nat * nat) : SparseTensor :=
  mkSparse idx (of_reals vals) shape.

Definition Rsum (l : list R) : R := fold_right Rplus 0 l.

Definition sq (x : R) : R := x * x.

(** The root mean square error as a formula on real vectors; the mean of
    an empty vector is undefined. *)
Definition rmse_formula (interactions_serial predictions_serial : list R)
  : tfloat :=
  match interactions_serial with
  | [] => NaN
  | _ =>
      Fin (sqrt (Rsum (zip_with (fun i p => sq (i - p))
                                interactions_serial predictions_serial)
                 / INR (length interactions_serial)))
  end.

Definition non_negative (x : tfloat) : Prop :=
  match x with
  | Fin r => 0 <= r
  | PInf => True
  | _ => False
  end.

(** The two groups of the separation loss, read off the pairs of a
    prediction and its interaction. *)
Definition is_positive (x : R) : bool := if Rlt_dec 0 x then true else false.
Definition is_non_positive (x : R) : bool := if Rle_dec x 0 then true else false.

Definition positive_group (predictions interactions : list R) : list R :=
  map fst (filter (fun pi => is_positive (snd pi))
                  (combine predictions interactions)).

Definition non_positive_group (predictions interactions : list R) : list R :=
  map fst (filter (fun pi => is_non_positive (snd pi))
                  (combine predictions interactions)).

(** Mean and variance (the mean squared deviation from the mean) of a
    group of real numbers; both are undefined for an empty group. *)
Definition mean_formula (l : list R) : tfloat :=
  match l with
  | [] => NaN
  | _ => Fin (Rsum l / INR (length l))
  end.

Definition variance_formula (l : list R) : tfloat :=
  match l with
  | [] => NaN
  | _ =>
      let m := Rsum l / INR (length l) in
      Fin (Rsum (map (fun x => sq (x - m)) l) / INR (length l))
  end.

(** 1 - CDF(0) of the Normal distribution of the given parameters. *)
Definition overlap (loc scale : tfloat) : tfloat :=
  f_sub (Fin 1) (cdf (mkNormal loc scale) (Fin 0)).

(** Two interaction vectors with the same signs, entry by entry. *)
Definition same_signs (i i' : list R) : Prop :=
  Forall2 (fun x y => 0 < x <-> 0 < y) i i'.

(** Flipping the sign of every entry. *)
Definition negate (l : list R) : list R := map Ropp l.

(** The stored entries of a sparse tensor whose value is strictly
    positive, in storage order. *)
Definition positive_pairs (idx : list (nat * nat)) (vals : list R)
  : list (nat * nat) :=
  map fst (filter (fun e => is_positive (snd e)) (combine idx vals)).

(** Reading a matrix of reals. *)
Definition real_entry (rs : list (list R)) (ij : nat * nat) : R :=
  nth (snd ij) (nth (fst ij) rs []) 0.

Definition in_range (rs : list (list R)) (ij : nat * nat) : Prop :=
  (fst ij < length rs)%nat /\ (snd ij < length (nth (fst ij) rs []))%nat.

Definition row_sum (rs : list (list R)) (u : nat) : R := Rsum (nth u rs []).

(** The margin of one positive pair: [k] sampled items, prediction [p] of
    the pair and sum [s] of the user's sampled predictions. *)
Definition wmrb_margin (k : nat) (p s : R) : R :=
  INR k - INR k * p + s + INR k.

(** Sum of the squares of the entries of a matrix of reals. *)
Definition sumsq (rs : list (list R)) : R :=
  Rsum (map (fun r => Rsum (map sq r)) rs).

(** Adding a constant to every entry. *)
Definition shift (c : R) (l : list R) : list R := map (fun x => x + c) l.

(** The shape a node has in the graph: one entry per sample, one per
    user and item, or one per user and sampled item. *)
Inductive node_kind : Type := SerialNode | DenseNode | SampleNode.

Definition kind_of (k : Nodes.name) : node_kind :=
  match k with
  | Nodes.prediction_serial | Nodes.interactions_serial => SerialNode
  | Nodes.prediction | Nodes.interactions | Nodes.rankings
  | Nodes.alignment => DenseNode
  | Nodes.sample_predictions | Nodes.sample_alignments => SampleNode
  end.

(** * Properties *)

(** ** Scalars *)

Lemma Rsign_pos x : 0 < x -> Rsign x = Pos.
Proof.
  intros H. unfold Rsign.
  destruct (total_order_T x 0) as [[Hlt | Heq] | Hgt]; try reflexivity; lra.
Qed.

Lemma Rsign_zero : Rsign 0 = Zero.
Proof.
  unfold Rsign.
  destruct (total_order_T 0 0) as [[Hlt | Heq] | Hgt]; try reflexivity; lra.
Qed.

Lemma f_sqrt_nonneg x : 0 <= x -> f_sqrt (Fin x) = Fin (sqrt x).
Proof.
  intros H. unfold f_sqrt, Rsign.
  destruct (total_order_T x 0) as [[Hlt | Heq] | Hgt]; try reflexivity; lra.
Qed.

Lemma f_div_pos x y : 0 < y -> f_div (Fin x) (Fin y) = Fin (x / y).
Proof. intros H. unfold f_div. now rewrite (Rsign_pos y H). Qed.

Lemma f_div_0_0 : f_div (Fin 0) (Fin 0) = NaN.
Proof. unfold f_div. now rewrite Rsign_zero. Qed.

Lemma f_add_comm a b : f_add a b = f_add b a.
Proof. destruct a, b; simpl; try reflexivity. f_equal. apply Rplus_comm. Qed.

Lemma f_sub_neg_neg a b : f_sub (f_neg a) (f_neg b) = f_sub b a.
Proof.
  unfold f_sub. destruct a, b; simpl; try reflexivity. f_equal. lra.
Qed.

(** ** Sums and means of real tensors *)

Lemma zip_with_of_reals (f : tfloat -> tfloat -> tfloat) (g : R -> R -> R) :
  (forall x y, f (Fin x) (Fin y) = Fin (g x y)) ->
  forall a b, zip_with f (of_reals a) (of_reals b) = of_reals (zip_with g a b).
Proof.
  intros Hfg. induction a as [| x a IH]; intros [| y b]; simpl; try reflexivity.
  now rewrite Hfg, IH.
Qed.

Lemma square_of_reals l : square (of_reals l) = of_reals (map sq l).
Proof. unfold square, of_reals. now rewrite !map_map. Qed.

Lemma reduce_sum_of_reals l : reduce_sum (of_reals l) = Fin (Rsum l).
Proof.
  unfold reduce_sum, of_reals.
  induction l as [| x l IH]; simpl; [reflexivity |].
  now rewrite IH.
Qed.

Lemma length_of_reals l : length (of_reals l) = length l.
Proof. apply length_map. Qed.

Lemma reduce_mean_of_reals l :
  l <> [] -> reduce_mean (of_reals l) = Fin (Rsum l / INR (length l)).
Proof.
  intros Hl. unfold reduce_mean.
  rewrite reduce_sum_of_reals, length_of_reals.
  apply f_div_pos. destruct l; [congruence |]. apply lt_0_INR. simpl. lia.
Qed.

Lemma reduce_mean_nil : reduce_mean [] = NaN.
Proof. unfold reduce_mean. simpl. apply f_div_0_0. Qed.

Lemma Rsum_sq_nonneg l : 0 <= Rsum (map sq l).
Proof.
  induction l as [| x l IH]; simpl; [lra |].
  pose proof (Rle_0_sqr x) as Hx. unfold Rsqr in Hx. unfold sq at 1. lra.
Qed.

Lemma zip_with_length {A B C} (f : A -> B -> C) a b :
  length a = length b -> length (zip_with f a b) = length a.
Proof.
  revert b. induction a as [| x a IH]; intros [| y b] H; simpl in *;
    try congruence.
  f_equal. apply IH. congruence.
Qed.

Lemma zip_with_map_sq (a b : list R) :
  zip_with (fun i p => sq (i - p)) a b = map sq (zip_with Rminus a b).
Proof.
  revert b. induction a as [| x a IH]; intros [| y b]; simpl; try reflexivity.
  now rewrite IH.
Qed.

Lemma Rsum_sq_diff_same (a : list R) :
  Rsum (map sq (zip_with Rminus a a)) = 0.
Proof.
  induction a as [| x a IH]; simpl; [reflexivity |].
  rewrite IH. unfold sq. lra.
Qed.

(** ** RMSE *)

Lemma sub_of_reals (a b : list R) :
  length a = length b ->
  sub (of_reals a) (of_reals b) = Some (of_reals (zip_with Rminus a b)).
Proof.
  intros H. unfold sub, broadcast.
  rewrite !length_of_reals, H, Nat.eqb_refl.
  f_equal. apply zip_with_of_reals. intros x y. simpl. reflexivity.
Qed.

Lemma rmse_loss_graph_reals (p i : list R) (kwargs : Kwargs) :
  length p = length i ->
  RMSELossGraph.loss_graph (of_reals p) (of_reals i) kwargs =
  Some (f_sqrt (reduce_mean (of_reals (map sq (zip_with Rminus i p))))).
Proof.
  intros H. unfold RMSELossGraph.loss_graph.
  rewrite sub_of_reals by congruence. simpl.
  now rewrite square_of_reals.
Qed.

Lemma rmse_loss_graph_nonempty (p i : list R) (kwargs : Kwargs) :
  length p = length i -> i <> [] ->
  0 <= Rsum (map sq (zip_with Rminus i p)) / INR (length i) /\
  RMSELossGraph.loss_graph (of_reals p) (of_reals i) kwargs =
  Some (Fin (sqrt (Rsum (map sq (zip_with Rminus i p)) / INR (length i)))).
Proof.
  intros H Hi.
  assert (Hn : 0 < INR (length i)).
  { destruct i; [congruence |]. apply lt_0_INR. simpl. lia. }
  assert (Hm : 0 <= Rsum (map sq (zip_with Rminus i p)) / INR (length i)).
  { apply Rmult_le_pos; [apply Rsum_sq_nonneg |].
    left. now apply Rinv_0_lt_compat. }
  split; [exact Hm |].
  rewrite rmse_loss_graph_reals by exact H.
  rewrite reduce_mean_of_reals.
  - rewrite length_map, zip_with_length by (symmetry; exact H).
    now rewrite f_sqrt_nonneg.
  - destruct i, p; simpl in *; congruence.
Qed.

(** C7. For every equal-length pair of serial interaction and prediction
    vectors, [RMSELossGraph.loss_graph] returns
    sqrt(mean((interactions_serial - predictions_serial)^2)). *)
Theorem rmse_loss_graph_formula (p i : list R) (kwargs : Kwargs) :
  length p = length i ->
  RMSELossGraph.loss_graph (of_reals p) (of_reals i) kwargs =
  Some (rmse_formula i p).
Proof.
  intros H. destruct i as [| i0 i'].
  - destruct p; [| discriminate].
    rewrite rmse_loss_graph_reals by reflexivity.
    simpl. now rewrite reduce_mean_nil.
  - destruct (rmse_loss_graph_nonempty p (i0 :: i') kwargs H) as [_ ->];
      [discriminate |].
    unfold rmse_formula. now rewrite zip_with_map_sq.
Qed.

Lemma rmse_loss_graph_formula_witness :
  RMSELossGraph.loss_graph (of_reals [0; 0; 0]) (of_reals [1; 1; 1]) [] =
  Some (rmse_formula [1; 1; 1] [0; 0; 0]).
Proof. apply (rmse_loss_graph_formula [0; 0; 0] [1; 1; 1] []). reflexivity. Defined.

(** The claim C8 as it is written fails on the empty vectors: they match
    exactly, and the mean of no element is NaN.  It also fails on tensors
    that hold an infinity: [inf] matches [inf] and the loss is NaN. *)
Lemma rmse_empty_counterexample :
  ~ (forall (p i : list R) (kwargs : Kwargs),
        length p = length i ->
        exists x,
          RMSELossGraph.loss_graph (of_reals p) (of_reals i) kwargs = Some x /\
          non_negative x /\ (x = Fin 0 <-> p = i)) /\
  RMSELossGraph.loss_graph [PInf] [PInf] [] = Some NaN.
Proof.
  split; [| reflexivity].
  intros H. destruct (H [] [] [] eq_refl) as (x & Hx & Hnn & _).
  rewrite rmse_loss_graph_reals in Hx by reflexivity.
  simpl in Hx. rewrite reduce_mean_nil in Hx. simpl in Hx.
  injection Hx as <-. exact Hnn.
Qed.

(** C8, amended. For all equal-length, non-empty prediction/interaction
    vectors of finite numbers the RMSE loss is never negative and never
    NaN (a number >= 0, or +inf), and it is 0 whenever the predictions
    exactly match the interactions; predictions [1,2,3] with interactions
    [1,2,3] give loss 0, and predictions [0,0,0] with interactions [1,1,1]
    give loss 1.  That a loss of 0 comes from matching vectors only is not
    stated: the square of a small difference can round to 0. *)
Theorem rmse_nonneg_zero_iff :
  (forall (p i : list R) (kwargs : Kwargs),
      length p = length i -> p <> [] ->
      exists x,
        RMSELossGraph.loss_graph (of_reals p) (of_reals i) kwargs = Some x /\
        non_negative x /\ (p = i -> x = Fin 0)) /\
  RMSELossGraph.loss_graph (of_reals [1; 2; 3]) (of_reals [1; 2; 3]) [] =
  Some (Fin 0) /\
  RMSELossGraph.loss_graph (of_reals [0; 0; 0]) (of_reals [1; 1; 1]) [] =
  Some (Fin 1).
Proof.
  assert (Hgen : forall (p i : list R) (kwargs : Kwargs),
      length p = length i -> p <> [] ->
      exists x,
        RMSELossGraph.loss_graph (of_reals p) (of_reals i) kwargs = Some x /\
        non_negative x /\ (p = i -> x = Fin 0)).
  { intros p i kwargs H Hp.
    assert (Hi : i <> []) by (destruct p, i; simpl in *; congruence).
    destruct (rmse_loss_graph_nonempty p i kwargs H Hi) as [Hm Hv].
    eexists. split; [exact Hv |]. split; [apply sqrt_pos |].
    intros ->. rewrite Rsum_sq_diff_same.
    unfold Rdiv. now rewrite Rmult_0_l, sqrt_0. }
  split; [exact Hgen |]. split.
  - destruct (Hgen [1; 2; 3] [1; 2; 3] [] eq_refl) as (x & Hx & _ & Hz);
      [discriminate |].
    rewrite Hx. f_equal. now apply Hz.
  - destruct (rmse_loss_graph_nonempty [0; 0; 0] [1; 1; 1] [] eq_refl)
      as [_ ->]; [discriminate |].
    do 2 f_equal. simpl. unfold sq.
    replace (((1 - 0) * (1 - 0) + ((1 - 0) * (1 - 0) + ((1 - 0) * (1 - 0) + 0)))
             / (1 + 1 + 1)) with 1 by field.
    apply sqrt_1.
Qed.

Lemma rmse_nonneg_zero_iff_witness :
  exists x,
    RMSELossGraph.loss_graph (of_reals [0; 0]) (of_reals [3; 4]) [] = Some x /\
    non_negative x /\ ([0; 0] = [3; 4] -> x = Fin 0).
Proof.
  apply (proj1 rmse_nonneg_zero_iff [0; 0] [3; 4] []);
    [reflexivity | discriminate].
Defined.

(** ** Separation *)

Lemma mask_positive (p i : list R) :
  length p = length i ->
  boolean_mask (of_reals p) (greater (of_reals i) (Fin 0)) =
  Some (of_reals (positive_group p i)).
Proof.
  revert i. induction p as [| x p IH]; intros [| y i] H; simpl in *;
    try congruence.
  - reflexivity.
  - unfold positive_group in *. simpl.
    rewrite IH by congruence. simpl.
    unfold is_positive. destruct (Rlt_dec 0 y); reflexivity.
Qed.

Lemma mask_non_positive (p i : list R) :
  length p = length i ->
  boolean_mask (of_reals p) (less_equal (of_reals i) (Fin 0)) =
  Some (of_reals (non_positive_group p i)).
Proof.
  revert i. induction p as [| x p IH]; intros [| y i] H; simpl in *;
    try congruence.
  - reflexivity.
  - unfold non_positive_group in *. simpl.
    rewrite IH by congruence. simpl.
    unfold is_non_positive. destruct (Rle_dec y 0); reflexivity.
Qed.

Lemma moments_of_reals (l : list R) :
  moments (of_reals l) = (mean_formula l, variance_formula l).
Proof.
  unfold moments. destruct l as [| x l].
  - simpl. now rewrite reduce_mean_nil.
  - rewrite reduce_mean_of_reals by discriminate.
    f_equal. unfold variance_formula.
    set (m := Rsum (x :: l) / INR (length (x :: l))).
    replace (map (fun v => f_square (f_sub v (Fin m))) (of_reals (x :: l)))
      with (of_reals (map (fun v => sq (v - m)) (x :: l))).
    + rewrite reduce_mean_of_reals by discriminate.
      now rewrite length_map.
    + unfold of_reals. rewrite !map_map. apply map_ext.
      intros v. reflexivity.
Qed.

Lemma separation_loss_graph_reals (p i : list R) (kwargs : Kwargs) :
  length p = length i ->
  SeparationLossGraph.loss_graph (of_reals p) (of_reals i) kwargs =
  Some (overlap
          (f_sub (mean_formula (non_positive_group p i))
                 (mean_formula (positive_group p i)))
          (f_sqrt (f_add (variance_formula (non_positive_group p i))
                         (variance_formula (positive_group p i))))).
Proof.
  intros H. unfold SeparationLossGraph.loss_graph.
  rewrite mask_positive by exact H. cbn [bind].
  rewrite mask_non_positive by exact H. cbn [bind].
  now rewrite !moments_of_reals.
Qed.

Lemma same_signs_length i i' : same_signs i i' -> length i = length i'.
Proof. intros H. induction H; simpl; congruence. Qed.

Lemma same_signs_groups p i i' :
  same_signs i i' ->
  positive_group p i = positive_group p i' /\
  non_positive_group p i = non_positive_group p i'.
Proof.
  intros H. revert p. induction H as [| x y i i' Hxy _ IH]; intros p.
  - destruct p; split; reflexivity.
  - destruct p as [| v p]; [split; reflexivity |].
    destruct (IH p) as [IHp IHn].
    unfold positive_group, non_positive_group in *. simpl.
    unfold is_positive, is_non_positive.
    destruct (Rlt_dec 0 x), (Rlt_dec 0 y), (Rle_dec x 0), (Rle_dec y 0);
      simpl; try (exfalso; lra); try (exfalso; tauto);
      (split;
       [ first [exact IHp | apply (f_equal (cons v)); exact IHp]
       | first [exact IHn | apply (f_equal (cons v)); exact IHn] ]).
Qed.

(** C3. The separation loss splits the serial predictions into those of a
    strictly positive interaction and those of an interaction that is zero
    or negative, takes the mean and the variance of each group, and returns
    1 - CDF(0) of the Normal distribution with
    loc = neg_mean - pos_mean and scale = sqrt(neg_var + pos_var); only the
    sign of an interaction matters. *)
Theorem separation_loss_graph_formula (p i : list R) (kwargs : Kwargs) :
  length p = length i ->
  let pos := positive_group p i in
  let neg := non_positive_group p i in
  SeparationLossGraph.loss_graph (of_reals p) (of_reals i) kwargs =
  Some (overlap (f_sub (mean_formula neg) (mean_formula pos))
                (f_sqrt (f_add (variance_formula neg)
                               (variance_formula pos)))) /\
  forall i', same_signs i i' ->
    SeparationLossGraph.loss_graph (of_reals p) (of_reals i') kwargs =
    SeparationLossGraph.loss_graph (of_reals p) (of_reals i) kwargs.
Proof.
  intros H pos neg. split.
  - now apply separation_loss_graph_reals.
  - intros i' Hs.
    rewrite !separation_loss_graph_reals;
      try (rewrite <- (same_signs_length _ _ Hs)); try exact H.
    destruct (same_signs_groups p i i' Hs) as [-> ->]. reflexivity.
Qed.

Lemma separation_loss_graph_formula_witness :
  let p := [1; 3; 2; 4] in
  let i := [1; 1; 0; 0] in
  SeparationLossGraph.loss_graph (of_reals p) (of_reals i) [] =
  Some (overlap
          (f_sub (mean_formula (non_positive_group p i))
                 (mean_formula (positive_group p i)))
          (f_sqrt (f_add (variance_formula (non_positive_group p i))
                         (variance_formula (positive_group p i))))).
Proof.
  intros p i.
  apply (separation_loss_graph_formula p i []). reflexivity.
Defined.

(** *** An empty group *)

Lemma no_positive_group p i :
  ~ Exists (fun v => 0 < v) i -> positive_group p i = [].
Proof.
  revert p. induction i as [| y i IH]; intros p H.
  - destruct p; reflexivity.
  - destruct p as [| x p]; [reflexivity |].
    unfold positive_group in *. simpl. unfold is_positive at 1.
    destruct (Rlt_dec 0 y) as [Hy | Hy].
    + exfalso. apply H. now left.
    + apply IH. intros HE. apply H. now right.
Qed.

Lemma no_non_positive_group p i :
  ~ Exists (fun v => v <= 0) i -> non_positive_group p i = [].
Proof.
  revert p. induction i as [| y i IH]; intros p H.
  - destruct p; reflexivity.
  - destruct p as [| x p]; [reflexivity |].
    unfold non_positive_group in *. simpl. unfold is_non_positive at 1.
    destruct (Rle_dec y 0) as [Hy | Hy].
    + exfalso. apply H. now left.
    + apply IH. intros HE. apply H. now right.
Qed.

Lemma separation_empty_group (p i : list R) (kwargs : Kwargs) :
  length p = length i ->
  positive_group p i = [] \/ non_positive_group p i = [] ->
  SeparationLossGraph.loss_graph (of_reals p) (of_reals i) kwargs = Some NaN.
Proof.
  intros H Hg. rewrite separation_loss_graph_reals by exact H.
  f_equal. destruct Hg as [-> | ->]; simpl.
  - destruct (mean_formula _); reflexivity.
  - reflexivity.
Qed.

(** C10. The separation loss is a number only when the serial interactions
    hold at least one strictly positive entry and at least one entry that
    is zero or negative: when one of the two groups is empty, its mean and
    variance are those of no element and the loss is NaN. *)
Theorem separation_needs_both_groups (p i : list R) (kwargs : Kwargs) :
  length p = length i ->
  (~ Exists (fun v => 0 < v) i \/ ~ Exists (fun v => v <= 0) i ->
   SeparationLossGraph.loss_graph (of_reals p) (of_reals i) kwargs =
   Some NaN) /\
  (forall x,
      SeparationLossGraph.loss_graph (of_reals p) (of_reals i) kwargs =
      Some x ->
      x <> NaN ->
      Exists (fun v => 0 < v) i /\ Exists (fun v => v <= 0) i).
Proof.
  intros H.
  assert (Hnan :
    ~ Exists (fun v => 0 < v) i \/ ~ Exists (fun v => v <= 0) i ->
    SeparationLossGraph.loss_graph (of_reals p) (of_reals i) kwargs =
    Some NaN).
  { intros [Hp | Hn]; apply separation_empty_group; try exact H.
    - left. now apply no_positive_group.
    - right. now apply no_non_positive_group. }
  split; [exact Hnan |].
  intros x Hx Hnum.
  destruct (Exists_dec (fun v => 0 < v) i (Rlt_dec 0)) as [Hp | Hp];
    destruct (Exists_dec (fun v => v <= 0) i (fun v => Rle_dec v 0))
      as [Hn | Hn];
    try (split; assumption);
    exfalso; apply Hnum;
    (rewrite Hnan in Hx; [congruence | tauto]).
Qed.

Lemma separation_needs_both_groups_witness :
  SeparationLossGraph.loss_graph (of_reals [1; 2]) (of_reals [-1; 0]) [] =
  Some NaN.
Proof.
  apply (proj1 (separation_needs_both_groups [1; 2] [-1; 0] [] eq_refl)).
  left. intros HE.
  inversion HE as [? ? H1 | ? ? H1]; subst; [lra |].
  inversion H1 as [? ? H2 | ? ? H2]; subst; [lra |].
  inversion H2.
Defined.

(** *** Negated predictions and flipped interactions *)

Lemma Rsum_negate l : Rsum (negate l) = - Rsum l.
Proof.
  unfold Rsum, negate. induction l as [| x l IH]; simpl; [lra |].
  rewrite IH. lra.
Qed.

Lemma mean_formula_nonempty l :
  l <> [] -> mean_formula l = Fin (Rsum l / INR (length l)).
Proof. destruct l; [congruence | reflexivity]. Qed.

Lemma variance_formula_nonempty l :
  l <> [] ->
  variance_formula l =
  Fin (Rsum (map (fun x => sq (x - Rsum l / INR (length l))) l)
       / INR (length l)).
Proof. destruct l; [congruence | reflexivity]. Qed.

Lemma negate_nonempty l : l <> [] -> negate l <> [].
Proof. destruct l; [congruence | discriminate]. Qed.

Lemma length_negate l : length (negate l) = length l.
Proof. apply length_map. Qed.

Lemma mean_formula_negate l : mean_formula (negate l) = f_neg (mean_formula l).
Proof.
  destruct l as [| x l]; [reflexivity |].
  rewrite !mean_formula_nonempty by (try apply negate_nonempty; discriminate).
  rewrite Rsum_negate, length_negate.
  cbn [f_neg]. f_equal. unfold Rdiv. lra.
Qed.

Lemma variance_formula_negate l :
  variance_formula (negate l) = variance_formula l.
Proof.
  destruct l as [| x l]; [reflexivity |].
  rewrite !variance_formula_nonempty
    by (try apply negate_nonempty; discriminate).
  rewrite Rsum_negate, length_negate.
  unfold negate at 1. rewrite map_map.
  do 3 f_equal. apply map_ext. intros v.
  unfold sq, Rdiv. lra.
Qed.

Lemma is_positive_opp y : y <> 0 -> is_positive (- y) = is_non_positive y.
Proof.
  intros H. unfold is_positive, is_non_positive.
  destruct (Rlt_dec 0 (- y)), (Rle_dec y 0); try reflexivity; lra.
Qed.

Lemma is_non_positive_opp y :
  y <> 0 -> is_non_positive (- y) = is_positive y.
Proof.
  intros H. unfold is_positive, is_non_positive.
  destruct (Rle_dec (- y) 0), (Rlt_dec 0 y); try reflexivity; lra.
Qed.

Lemma negate_groups (p i : list R) :
  Forall (fun v => v <> 0) i ->
  positive_group (negate p) (negate i) = negate (non_positive_group p i) /\
  non_positive_group (negate p) (negate i) = negate (positive_group p i).
Proof.
  intros H. revert p. induction H as [| y i Hy _ IH]; intros p.
  - destruct p; split; reflexivity.
  - destruct p as [| x p]; [split; reflexivity |].
    destruct (IH p) as [IHp IHn].
    unfold positive_group, non_positive_group, negate in *.
    cbn [map combine filter snd].
    rewrite is_positive_opp, is_non_positive_opp by exact Hy.
    destruct (is_positive y), (is_non_positive y); cbn [map fst];
      rewrite ?IHp, ?IHn; split; reflexivity.
Qed.

Lemma boolean_mask_mismatch {A} (t : list A) (m : list bool) :
  length t <> length m -> boolean_mask t m = None.
Proof.
  revert m. induction t as [| x t IH]; intros [| b m] H; simpl in *;
    try congruence.
  rewrite IH by congruence. reflexivity.
Qed.

Lemma separation_mismatch (p i : Tensor1) (kwargs : Kwargs) :
  length p <> length i ->
  SeparationLossGraph.loss_graph p i kwargs = None.
Proof.
  intros H. unfold SeparationLossGraph.loss_graph.
  rewrite boolean_mask_mismatch; [reflexivity |].
  unfold greater. now rewrite length_map.
Qed.

(** C4, amended. For every serial prediction/interaction pair in which no
    interaction is 0, negating every prediction and flipping the sign of
    every interaction, so that the two groups exchange, leaves the
    separation loss unchanged. *)
Theorem separation_negate (p i : list R) (kwargs : Kwargs) :
  Forall (fun v => v <> 0) i ->
  SeparationLossGraph.loss_graph (of_reals (negate p)) (of_reals (negate i))
                                 kwargs =
  SeparationLossGraph.loss_graph (of_reals p) (of_reals i) kwargs.
Proof.
  intros Hnz. destruct (Nat.eq_dec (length p) (length i)) as [H | H].
  - rewrite !separation_loss_graph_reals;
      [| exact H | unfold negate; rewrite !length_map; exact H].
    destruct (negate_groups p i Hnz) as [-> ->].
    rewrite !mean_formula_negate, !variance_formula_negate.
    rewrite f_sub_neg_neg.
    now rewrite (f_add_comm (variance_formula (positive_group p i))).
  - rewrite !separation_mismatch; [reflexivity | |];
      unfold negate, of_reals; now rewrite ?length_map.
Qed.

Lemma separation_negate_witness :
  SeparationLossGraph.loss_graph (of_reals (negate [1; 3; 2; 4]))
                                 (of_reals (negate [1; 2; -1; -2])) [] =
  SeparationLossGraph.loss_graph (of_reals [1; 3; 2; 4])
                                 (of_reals [1; 2; -1; -2]) [].
Proof.
  apply (separation_negate [1; 3; 2; 4] [1; 2; -1; -2] []).
  repeat constructor; lra.
Defined.

(** *** The distribution function is strictly increasing *)

Lemma gauss_lower (a b t : R) :
  a <= t <= b -> exp (- (a * a + b * b) / 2) <= gauss t.
Proof.
  intros [Ha Hb]. unfold gauss.
  assert (Ht : t * t <= a * a + b * b).
  { destruct (Rle_dec 0 t); nra. }
  destruct (Req_dec (t * t) (a * a + b * b)) as [-> | Hne]; [lra |].
  left. apply exp_increasing. lra.
Qed.

Lemma integral_gauss_pos (a b : R) :
  a < b -> 0 < RiemannInt (gauss_integrable a b).
Proof.
  intros Hab.
  set (m := exp (- (a * a + b * b) / 2)).
  assert (Hm : 0 < m) by apply exp_pos.
  pose (pr := RiemannInt_P14 a b m).
  assert (Hle : RiemannInt pr <= RiemannInt (gauss_integrable a b)).
  { apply RiemannInt_P19; [lra |].
    intros x Hx. unfold fct_cte. apply gauss_lower. lra. }
  rewrite RiemannInt_P15 in Hle.
  assert (0 < m * (b - a)) by (apply Rmult_lt_0_compat; lra).
  lra.
Qed.

Lemma Phi_increasing (a b : R) : a < b -> Phi a < Phi b.
Proof.
  intros Hab. unfold Phi.
  pose proof (RiemannInt_P26 (gauss_integrable 0 a) (gauss_integrable a b)
                (gauss_integrable 0 b)) as Hch.
  pose proof (integral_gauss_pos a b Hab) as Hpos.
  assert (Hc : 0 < / sqrt (2 * PI)).
  { apply Rinv_0_lt_compat, sqrt_lt_R0. pose proof PI_RGT_0. lra. }
  rewrite <- Hch. nra.
Qed.

(** *** Zero-valued interactions *)

Ltac decide_signs :=
  unfold positive_group, non_positive_group, negate; simpl;
  unfold is_positive, is_non_positive;
  repeat match goal with
         | |- context [Rlt_dec ?a ?b] => destruct (Rlt_dec a b); try lra
         | |- context [Rle_dec ?a ?b] => destruct (Rle_dec a b); try lra
         end;
  try reflexivity.

Ltac normal_parameters l s :=
  unfold mean_formula, variance_formula, Rsum, sq;
  cbn [fold_right map length INR f_sub f_add f_neg];
  match goal with
  | |- context [overlap (Fin ?a) (f_sqrt (Fin ?b))] =>
      replace a with l by lra; replace b with s by lra
  end.

(** The claim C4 as it is written fails when an interaction is 0: the
    negative mask is [less_equal], so a zero interaction stays in the second
    group when every sign is flipped and the groups do not exchange.  With
    predictions [0, 2, 0] and interactions [1, 0, -1] the loss is
    1 - Phi(-1); with every prediction negated and every interaction
    flipped it is 1 - Phi(1), a different number. *)
Lemma separation_zero_interaction_counterexample :
  let p := [0; 2; 0] in
  let i := [1; 0; -1] in
  SeparationLossGraph.loss_graph (of_reals p) (of_reals i) [] =
    Some (Fin (1 - Phi (-1))) /\
  SeparationLossGraph.loss_graph (of_reals (negate p)) (of_reals (negate i))
                                 [] =
    Some (Fin (1 - Phi 1)) /\
  1 - Phi 1 < 1 - Phi (-1).
Proof.
  intros p i. subst p i. split; [| split].
  - rewrite separation_loss_graph_reals by reflexivity.
    replace (positive_group [0; 2; 0] [1; 0; -1]) with [0] by decide_signs.
    replace (non_positive_group [0; 2; 0] [1; 0; -1]) with [2; 0]
      by decide_signs.
    normal_parameters 1 1.
    rewrite f_sqrt_nonneg, sqrt_1 by lra.
    unfold overlap, cdf. cbn [loc scale f_sub f_add f_neg].
    rewrite f_div_pos by lra. cbn [ndtr f_add f_neg].
    do 2 f_equal. replace ((0 + - (1)) / 1) with (-1) by lra. lra.
  - rewrite separation_loss_graph_reals by reflexivity.
    replace (positive_group (negate [0; 2; 0]) (negate [1; 0; -1]))
      with [- 0] by decide_signs.
    replace (non_positive_group (negate [0; 2; 0]) (negate [1; 0; -1]))
      with [- 0; - 2] by decide_signs.
    normal_parameters (-1) 1.
    rewrite f_sqrt_nonneg, sqrt_1 by lra.
    unfold overlap, cdf. cbn [loc scale f_sub f_add f_neg].
    rewrite f_div_pos by lra. cbn [ndtr f_add f_neg].
    do 2 f_equal. replace ((0 + - (-1)) / 1) with 1 by lra. lra.
  - assert (Phi (-1) < Phi 1) by (apply Phi_increasing; lra). lra.
Qed.

(** ** WMRB *)

Lemma mask_positive_pairs {A} (t : list A) (vals : list R) :
  length t = length vals ->
  boolean_mask t (greater (of_reals vals) (Fin 0)) =
  Some (map fst (filter (fun e => is_positive (snd e)) (combine t vals))).
Proof.
  revert vals. induction t as [| x t IH]; intros [| y vals] H; simpl in *;
    try congruence.
  rewrite IH by congruence. simpl.
  unfold is_positive. destruct (Rlt_dec 0 y); reflexivity.
Qed.

Lemma positive_pairs_length idx vals :
  length idx = length vals ->
  length (positive_pairs idx vals) = length (filter is_positive vals).
Proof.
  unfold positive_pairs. rewrite length_map.
  revert vals. induction idx as [| x idx IH]; intros [| y vals] H;
    simpl in *; try congruence.
  destruct (is_positive y); simpl; rewrite IH; congruence.
Qed.

Lemma nth_error_of_reals l n :
  (n < length l)%nat -> nth_error (of_reals l) n = Some (Fin (nth n l 0)).
Proof.
  intros H. unfold of_reals. rewrite nth_error_map.
  now rewrite (nth_error_nth' l 0 H).
Qed.

Lemma entry_of_reals c rs ij :
  in_range rs ij ->
  entry (dense_of_reals c rs) ij = Some (Fin (real_entry rs ij)).
Proof.
  intros [Hi Hj]. unfold entry, dense_of_reals, real_entry. cbn [rows].
  rewrite nth_error_map, (nth_error_nth' rs [] Hi). cbn [option_map bind].
  now apply nth_error_of_reals.
Qed.

Lemma traverse_map_some {A B C} (f : A -> option B) (g : A -> C)
  (h : C -> B) (l : list A) :
  Forall (fun x => f x = Some (h (g x))) l ->
  traverse f l = Some (map h (map g l)).
Proof.
  induction 1 as [| x l Hx _ IH]; simpl; [reflexivity |].
  now rewrite Hx, IH.
Qed.

Lemma gather_nd_of_reals c rs idx :
  Forall (in_range rs) idx ->
  gather_nd (dense_of_reals c rs) idx = Some (of_reals (map (real_entry rs) idx)).
Proof.
  intros H. unfold gather_nd, of_reals. apply traverse_map_some.
  eapply Forall_impl; [| exact H].
  intros ij Hij. now apply entry_of_reals.
Qed.

Lemma reduce_sum_axis1_of_reals c rs :
  reduce_sum_axis1 (dense_of_reals c rs) = of_reals (map Rsum rs).
Proof.
  unfold reduce_sum_axis1, dense_of_reals, of_reals. cbn [rows].
  rewrite !map_map. apply map_ext. intros r. apply reduce_sum_of_reals.
Qed.

Lemma gather_row_sums c rs (idx : list (nat * nat)) :
  Forall (fun ij => (fst ij < length rs)%nat) idx ->
  gather (reduce_sum_axis1 (dense_of_reals c rs)) (transpose_0 idx) =
  Some (of_reals (map (fun ij => row_sum rs (fst ij)) idx)).
Proof.
  intros H. rewrite reduce_sum_axis1_of_reals.
  unfold gather, transpose_0.
  induction H as [| ij idx Hij _ IH]; simpl; [reflexivity |].
  rewrite nth_error_of_reals by now rewrite length_map.
  cbn [bind]. rewrite IH. cbn [bind]. do 3 f_equal.
  unfold row_sum.
  change 0 with (Rsum []). now rewrite map_nth.
Qed.

Lemma zip_with_map_map {A B C D} (f : B -> C -> D) (g : A -> B)
  (h : A -> C) (l : list A) :
  zip_with f (map g l) (map h l) = map (fun x => f (g x) (h x)) l.
Proof. induction l as [| x l IH]; simpl; [reflexivity | now rewrite IH]. Qed.

Lemma wmrb_loss_graph_reals c prows idx vals shape k srows (kwargs : Kwargs) :
  length idx = length vals ->
  Forall (fun ij => in_range prows ij /\ (fst ij < length srows)%nat)
         (positive_pairs idx vals) ->
  WMRBLossGraph.loss_graph (dense_of_reals c prows)
                           (sparse_of_reals idx vals shape)
                           (dense_of_reals k srows) kwargs =
  Some (of_reals
          (map (fun ij => wmrb_margin k (real_entry prows ij)
                                      (row_sum srows (fst ij)))
               (positive_pairs idx vals))).
Proof.
  intros Hlen Hr. unfold WMRBLossGraph.loss_graph.
  cbn [indices values sparse_of_reals].
  rewrite mask_positive_pairs by exact Hlen. cbn [bind].
  fold (positive_pairs idx vals).
  rewrite gather_nd_of_reals
    by (eapply Forall_impl; [| exact Hr]; intros ij [H _]; exact H).
  cbn [bind].
  rewrite gather_row_sums
    by (eapply Forall_impl; [| exact Hr]; intros ij [_ H]; exact H).
  cbn [bind n_cols dense_of_reals].
  unfold add, broadcast, scalar_sub, scalar_mul, add_scalar, of_reals.
  rewrite !length_map, Nat.eqb_refl. cbn [bind].
  rewrite !map_map, zip_with_map_map, map_map. f_equal.
Qed.

(** C1. The WMRB loss keeps the stored interactions whose value is
    strictly greater than 0 and returns, for each of them and in their
    order, n - n * prediction + (sum of the user's sampled predictions) + n
    with n the number of columns of the sample predictions: a vector with
    one entry per strictly positive interaction. *)
Theorem wmrb_loss_graph_formula c prows idx vals shape k srows
  (kwargs : Kwargs) :
  length idx = length vals ->
  Forall (fun ij => in_range prows ij /\ (fst ij < length srows)%nat)
         (positive_pairs idx vals) ->
  WMRBLossGraph.loss_graph (dense_of_reals c prows)
                           (sparse_of_reals idx vals shape)
                           (dense_of_reals k srows) kwargs =
  Some (of_reals
          (map (fun ij => INR k - INR k * real_entry prows ij
                          + row_sum srows (fst ij) + INR k)
               (positive_pairs idx vals))) /\
  length (positive_pairs idx vals) = length (filter is_positive vals).
Proof.
  intros Hlen Hr. split.
  - now apply wmrb_loss_graph_reals.
  - now apply positive_pairs_length.
Qed.

Ltac decide_positive_pairs :=
  unfold positive_pairs; simpl; unfold is_positive;
  repeat match goal with
         | |- context [Rlt_dec ?a ?b] => destruct (Rlt_dec a b); try lra
         end.

Lemma wmrb_loss_graph_formula_witness :
  let prows := [[1; 2]; [3; 4]] in
  let idx := [(0, 1); (1, 0); (1, 1)]%nat in
  let vals := [1; -1; 0] in
  let srows := [[5; 6; 7]; [8; 9; 10]] in
  WMRBLossGraph.loss_graph (dense_of_reals 2 prows)
                           (sparse_of_reals idx vals (2, 2)%nat)
                           (dense_of_reals 3 srows) [] =
  Some (of_reals
          (map (fun ij => INR 3 - INR 3 * real_entry prows ij
                          + row_sum srows (fst ij) + INR 3)
               (positive_pairs idx vals))) /\
  length (positive_pairs idx vals) = length (filter is_positive vals).
Proof.
  intros prows idx vals srows.
  apply (wmrb_loss_graph_formula 2 prows idx vals (2, 2)%nat 3 srows []).
  - reflexivity.
  - subst prows idx vals srows. decide_positive_pairs.
    repeat constructor; simpl; lia.
Defined.

(** C5. The alignment variant hands its three tensors to the WMRB
    computation and returns what it returns. *)
Theorem wmrb_alignment_delegates (scores : DenseTensor)
  (tf_interactions : SparseTensor) (sampled_scores : DenseTensor)
  (kwargs kwargs' : Kwargs) :
  WMRBAlignmentLossGraph.loss_graph scores tf_interactions sampled_scores
                                    kwargs =
  WMRBLossGraph.loss_graph scores tf_interactions sampled_scores kwargs'.
Proof. reflexivity. Qed.

(** With no sampled item the margin is 0 whatever the prediction: raising
    the prediction of the single positive pair from 1 to 2 does not lower
    it. *)
Lemma wmrb_no_sampled_item_counterexample :
  let ints := sparse_of_reals [(0, 0)%nat] [1] (1, 1)%nat in
  let samples := dense_of_reals 0 [[]] in
  WMRBLossGraph.loss_graph (dense_of_reals 1 [[1]]) ints samples [] =
    Some [Fin 0] /\
  WMRBLossGraph.loss_graph (dense_of_reals 1 [[2]]) ints samples [] =
    Some [Fin 0].
Proof.
  intros ints samples. subst ints samples.
  split.
  - rewrite wmrb_loss_graph_reals; [| reflexivity |];
      decide_positive_pairs; [| repeat constructor; simpl; lia].
    unfold wmrb_margin, real_entry, row_sum. simpl. do 3 f_equal. lra.
  - rewrite wmrb_loss_graph_reals; [| reflexivity |];
      decide_positive_pairs; [| repeat constructor; simpl; lia].
    unfold wmrb_margin, real_entry, row_sum. simpl. do 3 f_equal. lra.
Qed.

(** C6, amended. With k sampled items, the entry of a positive pair of
    prediction p whose user has sample sum s is the value of
    k - k*p + s + k.  A larger prediction for that pair, with the same
    samples, never gives a larger entry (comparing entries that are not
    NaN); the expression itself, over the reals, is strictly decreasing in
    p when k >= 1, a decrease that rounding may absorb in the computed
    entry. *)
Theorem wmrb_margin_decreasing c prows prows' idx vals shape k srows
  (kwargs : Kwargs) (m : nat) (ij : nat * nat) :
  length idx = length vals ->
  Forall (fun ij => in_range prows ij /\ (fst ij < length srows)%nat)
         (positive_pairs idx vals) ->
  Forall (in_range prows') (positive_pairs idx vals) ->
  nth_error (positive_pairs idx vals) m = Some ij ->
  real_entry prows ij < real_entry prows' ij ->
  let margin := fun p => INR k - INR k * p + row_sum srows (fst ij) + INR k in
  exists res res',
    WMRBLossGraph.loss_graph (dense_of_reals c prows)
                             (sparse_of_reals idx vals shape)
                             (dense_of_reals k srows) kwargs = Some res /\
    WMRBLossGraph.loss_graph (dense_of_reals c prows')
                             (sparse_of_reals idx vals shape)
                             (dense_of_reals k srows) kwargs = Some res' /\
    nth_error res m = Some (Fin (margin (real_entry prows ij))) /\
    nth_error res' m = Some (Fin (margin (real_entry prows' ij))) /\
    (forall e e',
        nth_error res m = Some e -> nth_error res' m = Some e' ->
        e <> NaN -> e' <> NaN -> f_le e' e = true) /\
    ((0 < k)%nat ->
     margin (real_entry prows' ij) < margin (real_entry prows ij)).
Proof.
  intros Hlen Hr Hr' Hm Hlt margin.
  assert (Hr2 : Forall (fun ij => in_range prows' ij /\
                                  (fst ij < length srows)%nat)
                       (positive_pairs idx vals)).
  { rewrite Forall_forall in *. intros e He. split.
    - now apply Hr'.
    - now apply Hr. }
  assert (HK : 0 <= INR k) by apply pos_INR.
  assert (Hle : margin (real_entry prows' ij) <= margin (real_entry prows ij))
    by (unfold margin; nra).
  do 2 eexists.
  split; [apply wmrb_loss_graph_reals; assumption |].
  split; [apply wmrb_loss_graph_reals; assumption |].
  unfold of_reals. rewrite !nth_error_map, !Hm. cbn [option_map].
  split; [reflexivity |]. split; [reflexivity |]. split.
  - intros e e' He He' _ _. injection He as <-. injection He' as <-.
    unfold wmrb_margin. fold (margin (real_entry prows ij)).
    fold (margin (real_entry prows' ij)). cbn [f_le].
    destruct (Rle_dec _ _); [reflexivity | contradiction].
  - intros Hk. assert (0 < INR k) by now apply lt_0_INR.
    unfold margin. nra.
Qed.

Lemma wmrb_margin_decreasing_witness :
  let idx := [(0, 0)%nat] in
  let vals := [1] in
  let srows := [[5; 6]] in
  let margin := fun p => INR 2 - INR 2 * p + row_sum srows 0 + INR 2 in
  exists res res',
    WMRBLossGraph.loss_graph (dense_of_reals 1 [[1]])
                             (sparse_of_reals idx vals (1, 1)%nat)
                             (dense_of_reals 2 srows) [] = Some res /\
    WMRBLossGraph.loss_graph (dense_of_reals 1 [[2]])
                             (sparse_of_reals idx vals (1, 1)%nat)
                             (dense_of_reals 2 srows) [] = Some res' /\
    nth_error res 0 = Some (Fin (margin (real_entry [[1]] (0, 0)%nat))) /\
    nth_error res' 0 = Some (Fin (margin (real_entry [[2]] (0, 0)%nat))) /\
    (forall e e',
        nth_error res 0 = Some e -> nth_error res' 0 = Some e' ->
        e <> NaN -> e' <> NaN -> f_le e' e = true) /\
    ((0 < 2)%nat ->
     margin (real_entry [[2]] (0, 0)%nat)
     < margin (real_entry [[1]] (0, 0)%nat)).
Proof.
  intros idx vals srows.
  assert (Hpp : positive_pairs idx vals = [(0, 0)%nat]).
  { subst idx vals. decide_positive_pairs. reflexivity. }
  apply (wmrb_margin_decreasing 1 [[1]] [[2]] idx vals (1, 1)%nat 2 srows []
                                0%nat (0, 0)%nat).
  - reflexivity.
  - rewrite Hpp. repeat constructor; simpl; lia.
  - rewrite Hpp. repeat constructor; simpl; lia.
  - rewrite Hpp. reflexivity.
  - unfold real_entry. simpl. lra.
Defined.

(** ** The catch-all keyword arguments *)

(** The equation a named tensor contributes, when the class names it. *)
Ltac agree_on Hsame k :=
  try (let E := fresh "E" in
       pose proof (Hsame k) as E;
       match type of E with
       | ?P -> _ =>
           let HP := fresh in
           assert (HP : P) by (simpl; auto);
           specialize (E HP); clear HP
       end;
       simpl in E; injection E as E; rewrite E).

(** C9. Every loss class returns the same value on two sets of nodes that
    agree on the tensors its signature names, whatever the other tensors
    are; so does [RMSELossGraph] on the same serial predictions and
    interactions with different dense, ranking, alignment and sample
    tensors. *)
Theorem unused_inputs_ignored (g : AbstractLossGraph) (a b : Nodes.t) :
  In g loss_classes ->
  (forall k, In k (named g) -> Nodes.get a k = Nodes.get b k) ->
  call g a = call g b.
Proof.
  intros Hg Hsame. unfold loss_classes in Hg. simpl in Hg.
  destruct Hg as [<- | [<- | [<- | [<- | [<- | []]]]]];
    cbn [call named RMSELossGraph.self RMSEDenseLossGraph.self
         SeparationLossGraph.self WMRBLossGraph.self
         WMRBAlignmentLossGraph.self] in *;
    agree_on Hsame Nodes.prediction_serial;
    agree_on Hsame Nodes.interactions_serial;
    agree_on Hsame Nodes.prediction;
    agree_on Hsame Nodes.interactions;
    agree_on Hsame Nodes.alignment;
    agree_on Hsame Nodes.sample_predictions;
    agree_on Hsame Nodes.sample_alignments;
    reflexivity.
Qed.

Lemma unused_inputs_ignored_witness :
  let empty := mkDense 0 [] in
  let a := Nodes.mk (of_reals [0; 0; 0]) (of_reals [1; 1; 1]) empty
                    (mkSparse [] [] (0, 0)%nat) empty empty empty empty in
  let b := Nodes.mk (of_reals [0; 0; 0]) (of_reals [1; 1; 1])
                    (dense_of_reals 1 [[7]])
                    (sparse_of_reals [(0, 0)%nat] [1] (1, 1)%nat)
                    (dense_of_reals 1 [[8]]) (dense_of_reals 1 [[9]])
                    (dense_of_reals 2 [[1; 2]]) (dense_of_reals 2 [[3; 4]]) in
  call RMSELossGraph.self a = call RMSELossGraph.self b.
Proof.
  intros empty a b.
  apply (unused_inputs_ignored RMSELossGraph.self a b).
  - left. reflexivity.
  - intros k [<- | [<- | []]]; reflexivity.
Defined.

(** ** RMSE over the dense grid *)

(** *** Updating one entry of a matrix *)

Section UpdateNth.
Context {A : Type}.
Variable f : A -> option A.

Lemma update_nth_spec (n : nat) (l : list A) (x y : A) :
  nth_error l n = Some x -> f x = Some y ->
  exists l',
    update_nth f n l = Some l' /\
    length l' = length l /\
    (forall d, nth n l' d = y) /\
    (forall m d, m <> n -> nth m l' d = nth m l d) /\
    (forall w : A -> R, Rsum (map w l') = Rsum (map w l) - w x + w y) /\
    (forall P : A -> Prop, Forall P l -> P y -> Forall P l').
Proof.
  revert l. induction n as [| n IH]; intros [| a l] Hn Hf;
    simpl in Hn; try discriminate.
  - injection Hn as ->. exists (y :: l). simpl. rewrite Hf.
    split; [reflexivity |]. split; [reflexivity |].
    split; [reflexivity |]. split; [| split].
    + intros [| m] d Hm; [congruence | reflexivity].
    + intros w. unfold Rsum. simpl. lra.
    + intros P HP Hy. inversion HP; subst. now constructor.
  - destruct (IH l Hn Hf) as (l' & Hu & Hlen & Hy & Hm & Hw & HP).
    exists (a :: l'). simpl. rewrite Hu.
    split; [reflexivity |]. split; [congruence |].
    split; [exact Hy |]. split; [| split].
    + intros [| m] d Hne; [reflexivity |]. apply Hm. congruence.
    + intros w. specialize (Hw w). unfold Rsum in *. simpl. lra.
    + intros P HPl HPy. inversion HPl; subst.
      constructor; [assumption |]. now apply HP.
Qed.
End UpdateNth.

Lemma Rsum_app l1 l2 : Rsum (l1 ++ l2) = Rsum l1 + Rsum l2.
Proof.
  unfold Rsum. induction l1 as [| x l1 IH]; simpl; [lra |].
  rewrite IH. lra.
Qed.

Lemma Rsum_sq_concat rs : Rsum (map sq (concat rs)) = sumsq rs.
Proof.
  unfold sumsq. induction rs as [| r rs IH]; simpl; [reflexivity |].
  rewrite map_app, Rsum_app, IH. reflexivity.
Qed.

Lemma length_concat_shaped {A} (c : nat) (rs : list (list A)) :
  Forall (fun r => length r = c) rs ->
  length (concat rs) = (length rs * c)%nat.
Proof.
  induction 1 as [| r rs Hr _ IH]; simpl; [reflexivity |].
  rewrite length_app, IH, Hr. reflexivity.
Qed.

Lemma update_entry_spec (g : R -> R) (ij : nat * nat) (rs : list (list R)) :
  in_range rs ij ->
  exists rs',
    update_entry g ij rs = Some rs' /\
    length rs' = length rs /\
    (forall i, length (nth i rs' []) = length (nth i rs [])) /\
    real_entry rs' ij = g (real_entry rs ij) /\
    (forall ij', ij' <> ij -> real_entry rs' ij' = real_entry rs ij') /\
    sumsq rs' = sumsq rs - sq (real_entry rs ij) + sq (g (real_entry rs ij)) /\
    (forall c, Forall (fun r => length r = c) rs ->
               Forall (fun r => length r = c) rs').
Proof.
  destruct ij as [i j]. intros [Hi Hj]. simpl in Hi, Hj.
  unfold update_entry, real_entry. cbn [fst snd].
  set (r := nth i rs []) in *.
  assert (Hr : nth_error rs i = Some r) by now apply nth_error_nth'.
  assert (Hx : nth_error r j = Some (nth j r 0)) by now apply nth_error_nth'.
  destruct (update_nth_spec (fun x => Some (g x)) j r _ _ Hx eq_refl)
    as (r' & Hu & Hlen & Hy & Hm & Hw & _).
  destruct (update_nth_spec (update_nth (fun x => Some (g x)) j) i rs _ _ Hr Hu)
    as (rs' & Hu' & Hlen' & Hy' & Hm' & Hw' & HP').
  exists rs'. split; [exact Hu' |]. split; [exact Hlen' |].
  split; [| split; [| split; [| split]]].
  - intros k. destruct (Nat.eq_dec k i) as [-> | Hk].
    + rewrite Hy'. exact Hlen.
    + now rewrite Hm'.
  - rewrite Hy'. apply Hy.
  - intros [i' j'] Hne. cbn [fst snd].
    destruct (Nat.eq_dec i' i) as [-> | Hi'].
    + rewrite Hy'. apply Hm. congruence.
    + now rewrite Hm'.
  - unfold sumsq. rewrite (Hw' (fun r => Rsum (map sq r))), (Hw sq).
    fold r. lra.
  - intros c Hc. apply HP'; [exact Hc |].
    rewrite Hlen. rewrite Forall_forall in Hc. apply Hc.
    eapply nth_error_In. exact Hr.
Qed.

Lemma in_range_shape rs rs' ij :
  length rs' = length rs ->
  (forall i, length (nth i rs' []) = length (nth i rs [])) ->
  in_range rs ij -> in_range rs' ij.
Proof.
  intros Hlen Hrow [Hi Hj]. split; [now rewrite Hlen | now rewrite Hrow].
Qed.

(** Scattering values at distinct positions changes the sum of squares by
    the change at each position. *)
Lemma scatter_spec (es : list ((nat * nat) * R)) :
  forall rs,
    NoDup (map fst es) ->
    Forall (in_range rs) (map fst es) ->
    exists E,
      scatter Rplus rs es = Some E /\
      length E = length rs /\
      (forall c, Forall (fun r => length r = c) rs ->
                 Forall (fun r => length r = c) E) /\
      sumsq E =
      sumsq rs
      + Rsum (map (fun e => sq (real_entry rs (fst e) + snd e)
                            - sq (real_entry rs (fst e))) es).
Proof.
  induction es as [| [ij v] es IH]; intros rs Hnd Hr.
  - exists rs. simpl. repeat split; auto. unfold Rsum. simpl. lra.
  - simpl in Hnd, Hr. inversion Hnd as [| ? ? Hnotin Hnd']; subst.
    inversion Hr as [| ? ? Hij Hr']; subst.
    destruct (update_entry_spec (fun x => x + v) ij rs Hij)
      as (rs1 & Hu & Hlen & Hrow & _ & Hother & Hsum & Hshape).
    assert (Hr1 : Forall (in_range rs1) (map fst es)).
    { eapply Forall_impl; [| exact Hr'].
      intros ij'. now apply in_range_shape. }
    destruct (IH rs1 Hnd' Hr1) as (E & HE & HlenE & HshapeE & HsumE).
    exists E. cbn [scatter]. rewrite Hu. cbn [bind].
    split; [exact HE |]. split; [congruence |].
    split; [intros c Hc; now apply HshapeE, Hshape |].
    rewrite HsumE, Hsum.
    rewrite (map_ext_in
               (fun e => sq (real_entry rs1 (fst e) + snd e)
                         - sq (real_entry rs1 (fst e)))
               (fun e => sq (real_entry rs (fst e) + snd e)
                         - sq (real_entry rs (fst e)))).
    + unfold Rsum. simpl. lra.
    + intros e He. cbv beta. rewrite Hother; [reflexivity |].
      intros Heq. apply Hnotin. rewrite <- Heq. now apply in_map.
Qed.

Lemma Rsum_sq_zero_row (r : list R) :
  (forall j, (j < length r)%nat -> nth j r 0 = 0) -> Rsum (map sq r) = 0.
Proof.
  unfold Rsum. induction r as [| x r IH]; intros H; simpl; [reflexivity |].
  rewrite IH.
  - assert (Hx : x = 0) by (apply (H 0%nat); simpl; lia).
    subst x. unfold sq. lra.
  - intros j Hj. apply (H (S j)). simpl. lia.
Qed.

Lemma sumsq_zero rs :
  (forall ij, in_range rs ij -> real_entry rs ij = 0) -> sumsq rs = 0.
Proof.
  unfold sumsq. induction rs as [| r rs IH]; intros H; [reflexivity |].
  cbn [map]. unfold Rsum at 1. cbn [fold_right].
  fold (Rsum (map (fun r0 => Rsum (map sq r0)) rs)).
  rewrite IH, Rsum_sq_zero_row; [lra | |].
  - intros j Hj. apply (H (0%nat, j)). split; simpl; [lia | exact Hj].
  - intros [i j] [Hi Hj]. apply (H (S i, j)).
    split; simpl in *; [lia | exact Hj].
Qed.

(** A matrix that is 0 outside distinct positions has the sum of squares
    of its entries at these positions. *)
Lemma sumsq_support (idx : list (nat * nat)) :
  forall rs,
    NoDup idx ->
    Forall (in_range rs) idx ->
    (forall ij, in_range rs ij -> ~ In ij idx -> real_entry rs ij = 0) ->
    sumsq rs = Rsum (map (fun ij => sq (real_entry rs ij)) idx).
Proof.
  induction idx as [| ij idx IH]; intros rs Hnd Hr Hz.
  - simpl. apply sumsq_zero. intros ij Hij. now apply Hz.
  - inversion Hnd as [| ? ? Hnotin Hnd']; subst.
    inversion Hr as [| ? ? Hij Hr']; subst.
    destruct (update_entry_spec (fun _ => 0) ij rs Hij)
      as (rs1 & _ & Hlen & Hrow & Hat & Hother & Hsum & _).
    assert (Hr1 : Forall (in_range rs1) idx).
    { eapply Forall_impl; [| exact Hr'].
      intros ij'. now apply in_range_shape. }
    assert (Hz1 : forall ij', in_range rs1 ij' -> ~ In ij' idx ->
                              real_entry rs1 ij' = 0).
    { intros ij' Hin Hni.
      destruct (Nat.eq_dec (fst ij') (fst ij)) as [Hf | Hf];
        [destruct (Nat.eq_dec (snd ij') (snd ij)) as [Hs | Hs] |].
      - replace ij' with ij by (destruct ij, ij'; simpl in *; congruence).
        exact Hat.
      - rewrite Hother by congruence. apply Hz.
        + eapply in_range_shape; [| | exact Hin]; [congruence |].
          intros i. now rewrite Hrow.
        + intros [<- | Hin']; [congruence | contradiction].
      - rewrite Hother by congruence. apply Hz.
        + eapply in_range_shape; [| | exact Hin]; [congruence |].
          intros i. now rewrite Hrow.
        + intros [<- | Hin']; [congruence | contradiction]. }
    specialize (IH rs1 Hnd' Hr1 Hz1).
    rewrite (map_ext_in (fun ij0 => sq (real_entry rs1 ij0))
                        (fun ij0 => sq (real_entry rs ij0))) in IH.
    + simpl. unfold Rsum in *. simpl. unfold sq at 2 in Hsum. lra.
    + intros e He. cbv beta. rewrite Hother; [reflexivity |].
      intros Heq. apply Hnotin. now rewrite <- Heq.
Qed.

(** *** Scattering real values into a matrix of reals *)

Lemma update_nth_map {A B} (h : A -> B) (f : A -> option A)
  (f' : B -> option B) :
  (forall x, f' (h x) = option_map h (f x)) ->
  forall n l, update_nth f' n (map h l) = option_map (map h) (update_nth f n l).
Proof.
  intros Hf. induction n as [| n IH]; intros [| x l]; simpl;
    try reflexivity.
  - rewrite Hf. destruct (f x); reflexivity.
  - rewrite IH. destruct (update_nth f n l); reflexivity.
Qed.

Lemma update_entry_of_reals (g : R -> R) (g' : tfloat -> tfloat) ij rs :
  (forall x, g' (Fin x) = Fin (g x)) ->
  update_entry g' ij (map of_reals rs) =
  option_map (map of_reals) (update_entry g ij rs).
Proof.
  intros Hg. unfold update_entry.
  apply update_nth_map. intros r. unfold of_reals.
  apply update_nth_map. intros x. simpl. now rewrite Hg.
Qed.

Lemma scatter_add_of_reals (es : list ((nat * nat) * R)) :
  forall rs,
    scatter_add (map of_reals rs) (map (fun e => (fst e, Fin (snd e))) es) =
    option_map (map of_reals) (scatter Rplus rs es).
Proof.
  unfold scatter_add.
  induction es as [| [ij v] es IH]; intros rs; [reflexivity |].
  cbn [map scatter fst snd].
  rewrite (update_entry_of_reals (fun x => x + v)) by reflexivity.
  destruct (update_entry (fun x => x + v) ij rs) as [rs1 |]; [| reflexivity].
  cbn [option_map bind]. apply IH.
Qed.

Lemma combine_of_reals {A} (idx : list A) (vals : list R) :
  combine idx (of_reals vals) =
  map (fun e => (fst e, Fin (snd e))) (combine idx vals).
Proof.
  revert vals. induction idx as [| i idx IH]; intros [| v vals]; simpl;
    try reflexivity.
  now rewrite IH.
Qed.

Lemma map_fst_combine {A B} (a : list A) (b : list B) :
  length a = length b -> map fst (combine a b) = a.
Proof.
  revert b. induction a as [| x a IH]; intros [| y b] H; simpl in *;
    try congruence.
  now rewrite IH by congruence.
Qed.

Lemma real_entry_negated rs ij :
  in_range rs ij ->
  real_entry (map (map (Rmult (-1))) rs) ij = - real_entry rs ij.
Proof.
  intros [Hi Hj]. unfold real_entry.
  change (@nil R) with (map (Rmult (-1)) []) at 1. rewrite map_nth.
  rewrite (nth_indep _ 0 (-1 * 0)) by now rewrite length_map.
  rewrite map_nth. lra.
Qed.

Lemma in_range_negated rs ij :
  in_range (map (map (Rmult (-1))) rs) ij <-> in_range rs ij.
Proof.
  unfold in_range. rewrite length_map.
  change (@nil R) with (map (Rmult (-1)) []) at 1.
  rewrite map_nth, length_map. tauto.
Qed.

Lemma sumsq_negated rs : sumsq (map (map (Rmult (-1))) rs) = sumsq rs.
Proof.
  unfold sumsq. rewrite map_map. f_equal. apply map_ext. intros r.
  rewrite map_map. f_equal. apply map_ext. intros x. unfold sq. lra.
Qed.

Lemma Rsum_map_plus {A} (f g : A -> R) l :
  Rsum (map (fun x => f x + g x) l) = Rsum (map f l) + Rsum (map g l).
Proof.
  unfold Rsum. induction l as [| x l IH]; simpl; [lra |]. rewrite IH. lra.
Qed.

Lemma zip_with_combine {A B C} (f : A -> B -> C) a b :
  zip_with f a b = map (fun e => f (fst e) (snd e)) (combine a b).
Proof.
  revert b. induction a as [| x a IH]; intros [| y b]; simpl;
    try reflexivity.
  now rewrite IH.
Qed.

(** The total squared error of the dense grid is that of the serial
    samples. *)
Lemma dense_error_sumsq c prows idx vals :
  Forall (fun r => length r = c) prows ->
  length idx = length vals ->
  NoDup idx ->
  Forall (in_range prows) idx ->
  (forall ij, in_range prows ij -> ~ In ij idx -> real_entry prows ij = 0) ->
  exists E,
    scatter Rplus (map (map (Rmult (-1))) prows) (combine idx vals) = Some E /\
    length (concat E) = (length prows * c)%nat /\
    sumsq E =
    Rsum (map sq (zip_with Rminus vals (map (real_entry prows) idx))).
Proof.
  intros Hshape Hlen Hnd Hr Hz.
  set (nrows := map (map (Rmult (-1))) prows).
  assert (Hfst : map fst (combine idx vals) = idx)
    by now apply map_fst_combine.
  assert (Hrn : Forall (in_range nrows) idx).
  { eapply Forall_impl; [| exact Hr]. intros ij. apply in_range_negated. }
  destruct (scatter_spec (combine idx vals) nrows)
    as (E & HE & HlenE & HshapeE & HsumE);
    [now rewrite Hfst | now rewrite Hfst |].
  exists E. split; [exact HE |]. split.
  - rewrite (length_concat_shaped c).
    + rewrite HlenE. unfold nrows. now rewrite length_map.
    + apply HshapeE. unfold nrows. rewrite Forall_map.
      eapply Forall_impl; [| exact Hshape].
      intros r Hrc. now rewrite length_map.
  - rewrite HsumE. unfold nrows at 1. rewrite sumsq_negated.
    rewrite (sumsq_support idx prows Hnd Hr Hz).
    rewrite <- Hfst at 1. rewrite map_map.
    rewrite <- Rsum_map_plus.
    rewrite zip_with_combine, map_map.
    assert (Hswap : forall (a : list R) (b : list (nat * nat)),
               map (fun e => sq (fst e - snd e))
                   (combine a (map (real_entry prows) b)) =
               map (fun e => sq (snd e - real_entry prows (fst e)))
                   (combine b a)).
    { induction a as [| x a IHa]; intros [| y b]; simpl; try reflexivity.
      now rewrite IHa. }
    rewrite Hswap. f_equal. apply map_ext_in.
    intros [ij v] He. cbn [fst snd].
    assert (Hin : in_range prows ij).
    { rewrite Forall_forall in Hr. apply Hr.
      rewrite <- Hfst. now apply (in_map fst) in He. }
    unfold nrows. rewrite real_entry_negated by exact Hin.
    unfold sq. lra.
Qed.

Lemma of_reals_inj a b : of_reals a = of_reals b -> a = b.
Proof.
  revert b. induction a as [| x a IH]; intros [| y b] H; simpl in *;
    try congruence.
  injection H as Hx Hab. f_equal; auto.
Qed.

Lemma rmse_dense_loss_graph_reals c prows idx vals (kwargs : Kwargs) :
  Forall (fun r => length r = c) prows ->
  length idx = length vals ->
  NoDup idx ->
  Forall (in_range prows) idx ->
  (forall ij, in_range prows ij -> ~ In ij idx -> real_entry prows ij = 0) ->
  RMSEDenseLossGraph.loss_graph
    (sparse_of_reals idx vals (length prows, c)) (dense_of_reals c prows)
    kwargs =
  Some (f_sqrt
          (f_div (Fin (Rsum (map sq (zip_with Rminus vals
                                       (map (real_entry prows) idx)))))
                 (Fin (INR (length prows * c))))).
Proof.
  intros Hshape Hlen Hnd Hr Hz.
  destruct (dense_error_sumsq c prows idx vals Hshape Hlen Hnd Hr Hz)
    as (E & HE & HlenE & HsumE).
  unfold RMSEDenseLossGraph.loss_graph, sparse_add.
  cbn [indices values dense_shape sparse_of_reals fst snd].
  unfold n_rows. cbn [rows n_cols scalar_mul_dense dense_of_reals].
  rewrite length_of_reals, Hlen, !length_map, !Nat.eqb_refl.
  cbn [negb andb].
  replace (map (map (f_mul (Fin (-1)))) (map of_reals prows))
    with (map of_reals (map (map (Rmult (-1))) prows)).
  - rewrite combine_of_reals, scatter_add_of_reals, HE.
    cbn [option_map bind]. f_equal. f_equal.
    unfold reduce_mean_dense, reduce_mean, flatten, square_dense.
    cbn [rows].
    replace (concat (map (map f_square) (map of_reals E)))
      with (of_reals (map sq (concat E))).
    + rewrite reduce_sum_of_reals, length_of_reals, length_map.
      now rewrite Rsum_sq_concat, HsumE, HlenE.
    + unfold of_reals. rewrite !concat_map, !map_map. f_equal.
      apply map_ext. intros r. now rewrite !map_map.
  - rewrite !map_map. apply map_ext. intros r.
    unfold of_reals. now rewrite !map_map.
Qed.

Lemma rmse_serial_loss_graph_reals (p i : list R) (kwargs : Kwargs) :
  length p = length i ->
  RMSELossGraph.loss_graph (of_reals p) (of_reals i) kwargs =
  Some (f_sqrt (f_div (Fin (Rsum (map sq (zip_with Rminus i p))))
                      (Fin (INR (length i))))).
Proof.
  intros H. rewrite rmse_loss_graph_reals by exact H.
  unfold reduce_mean.
  now rewrite reduce_sum_of_reals, length_of_reals, length_map,
    zip_with_length by (symmetry; exact H).
Qed.

Lemma rmse_dense_counterexample :
  let prows := [[0; 0]] in
  let idx := [(0, 0)%nat] in
  let vals := [1] in
  gather_nd (dense_of_reals 2 prows) idx = Some (of_reals [0]) /\
  RMSELossGraph.loss_graph (of_reals [0]) (of_reals vals) [] = Some (Fin 1) /\
  RMSEDenseLossGraph.loss_graph (sparse_of_reals idx vals (1, 2)%nat)
                                (dense_of_reals 2 prows) [] =
  Some (Fin (sqrt (1 / 2))) /\
  sqrt (1 / 2) <> 1.
Proof.
  intros prows idx vals. subst prows idx vals.
  split; [reflexivity |]. split; [| split].
  - rewrite rmse_serial_loss_graph_reals by reflexivity.
    cbn [zip_with map length]. unfold Rsum, sq. cbn [fold_right].
    replace (INR 1) with 1 by (simpl; lra).
    rewrite f_div_pos by lra.
    rewrite f_sqrt_nonneg by lra.
    replace (((1 - 0) * (1 - 0) + 0) / 1) with 1 by lra.
    now rewrite sqrt_1.
  - change (1, 2)%nat with (length [[0; 0]], 2%nat).
    rewrite rmse_dense_loss_graph_reals.
    + cbn [zip_with map length]. unfold Rsum, sq, real_entry.
      cbn [fold_right fst snd nth].
      replace (INR (1 * 2)) with 2 by (simpl; lra).
      rewrite f_div_pos by lra.
      rewrite f_sqrt_nonneg by lra.
      now replace (((1 - 0) * (1 - 0) + 0) / 2) with (1 / 2) by lra.
    + repeat constructor.
    + reflexivity.
    + repeat constructor. simpl. tauto.
    + repeat constructor; simpl; lia.
    + intros [i j] [Hi Hj] Hni. simpl in Hi, Hj.
      assert (i = 0%nat) by lia. subst i. simpl in Hj.
      destruct j as [| [| j]]; try reflexivity; simpl in Hj; lia.
  - intros H. assert (Hsq : sqrt (1 / 2) * sqrt (1 / 2) = 1 / 2)
      by (apply sqrt_sqrt; lra).
    rewrite H in Hsq. lra.
Qed.

Lemma entry_some_in_range c rs ij x :
  entry (dense_of_reals c rs) ij = Some x -> in_range rs ij.
Proof.
  unfold entry, dense_of_reals, in_range. cbn [rows].
  rewrite nth_error_map.
  destruct (nth_error rs (fst ij)) as [r |] eqn:Hr; [| discriminate].
  cbn [option_map bind]. intros Hx.
  assert (Hi : (fst ij < length rs)%nat)
    by (apply nth_error_Some; congruence).
  split; [exact Hi |].
  rewrite (nth_error_nth rs (fst ij) [] Hr).
  rewrite <- (length_of_reals r). apply nth_error_Some. congruence.
Qed.

Lemma gather_nd_in_range c rs idx t :
  gather_nd (dense_of_reals c rs) idx = Some t -> Forall (in_range rs) idx.
Proof.
  unfold gather_nd. revert t.
  induction idx as [| ij idx IH]; intros t H; [constructor |].
  cbn [traverse] in H.
  destruct (entry (dense_of_reals c rs) ij) as [x |] eqn:Hx;
    [| discriminate].
  cbn [bind] in H.
  destruct (traverse (entry (dense_of_reals c rs)) idx) as [t' |] eqn:Ht;
    [| discriminate].
  constructor.
  - eapply entry_some_in_range. exact Hx.
  - eapply IH. reflexivity.
Qed.

Lemma gather_nd_some c rs idx (p : list R) :
  gather_nd (dense_of_reals c rs) idx = Some (of_reals p) ->
  Forall (in_range rs) idx /\ p = map (real_entry rs) idx.
Proof.
  intros H. pose proof (gather_nd_in_range _ _ _ _ H) as Hr.
  split; [exact Hr |].
  rewrite gather_nd_of_reals in H by exact Hr.
  injection H as H. symmetry. now apply of_reals_inj.
Qed.

Lemma well_shaped_of_reals c rs :
  well_shaped (dense_of_reals c rs) <-> Forall (fun r => length r = c) rs.
Proof.
  unfold well_shaped, dense_of_reals. cbn [rows n_cols].
  rewrite Forall_map. split; intros H; (eapply Forall_impl; [| exact H]);
    intros r; cbv beta; now rewrite length_of_reals.
Qed.

(** C2, amended. When the stored entries of the sparse interaction matrix
    are exactly the serial samples and the predictions are 0 at every other
    cell, the two losses are the square roots of the same total squared
    error divided by the number of serial samples for [RMSELossGraph] and
    by n_users * n_items for [RMSEDenseLossGraph]; they return the same
    value when the samples cover every cell of the grid, and when there is
    a sample and every serial error is 0. *)
Theorem rmse_dense_matches_serial c prows idx vals p_serial
  (kwargs kwargs' : Kwargs) :
  well_shaped (dense_of_reals c prows) ->
  length idx = length vals ->
  NoDup idx ->
  gather_nd (dense_of_reals c prows) idx = Some (of_reals p_serial) ->
  (forall ij, in_range prows ij -> ~ In ij idx -> real_entry prows ij = 0) ->
  let total := Rsum (map sq (zip_with Rminus vals p_serial)) in
  let serial :=
    RMSELossGraph.loss_graph (of_reals p_serial) (of_reals vals) kwargs in
  let dense :=
    RMSEDenseLossGraph.loss_graph
      (sparse_of_reals idx vals (length prows, c)) (dense_of_reals c prows)
      kwargs' in
  serial = Some (f_sqrt (f_div (Fin total) (Fin (INR (length idx))))) /\
  dense = Some (f_sqrt (f_div (Fin total) (Fin (INR (length prows * c))))) /\
  (length idx = (length prows * c)%nat -> dense = serial) /\
  (idx <> [] -> total = 0 -> dense = serial).
Proof.
  intros Hshape Hlen Hnd Hg Hz total serial dense.
  apply well_shaped_of_reals in Hshape.
  destruct (gather_nd_some _ _ _ _ Hg) as [Hr Hp].
  assert (Hs : serial =
               Some (f_sqrt (f_div (Fin total) (Fin (INR (length idx)))))).
  { unfold serial. rewrite rmse_serial_loss_graph_reals.
    - now rewrite <- Hlen.
    - rewrite Hp, length_map. exact Hlen. }
  assert (Hd : dense =
               Some (f_sqrt (f_div (Fin total)
                                   (Fin (INR (length prows * c)))))).
  { unfold dense. rewrite rmse_dense_loss_graph_reals by assumption.
    unfold total. now rewrite Hp. }
  split; [exact Hs |]. split; [exact Hd |]. split.
  - intros Hcover. now rewrite Hs, Hd, Hcover.
  - intros Hne Ht. rewrite Hs, Hd, Ht.
    assert (Hn : 0 < INR (length idx)).
    { destruct idx; [congruence |]. apply lt_0_INR. simpl. lia. }
    assert (Hcells : 0 < INR (length prows * c)).
    { destruct idx as [| ij idx']; [congruence |].
      inversion Hr as [| ? ? [Hi Hj] _]; subst.
      assert (Hrow : length (nth (fst ij) prows []) = c).
      { rewrite Forall_forall in Hshape. apply Hshape.
        now apply nth_In. }
      apply lt_0_INR. rewrite Hrow in Hj. nia. }
    rewrite !f_div_pos by assumption.
    unfold Rdiv. now rewrite !Rmult_0_l.
Qed.

Lemma rmse_dense_matches_serial_witness :
  let prows := [[3; 4]] in
  let idx := [(0, 0); (0, 1)]%nat in
  let vals := [1; 2] in
  RMSEDenseLossGraph.loss_graph (sparse_of_reals idx vals (1, 2)%nat)
                                (dense_of_reals 2 prows) [] =
  RMSELossGraph.loss_graph (of_reals [3; 4]) (of_reals vals) [].
Proof.
  intros prows idx vals.
  refine (proj1 (proj2 (proj2 (rmse_dense_matches_serial
                                 2 prows idx vals [3; 4] [] []
                                 _ _ _ _ _))) _).
  - repeat constructor.
  - reflexivity.
  - repeat constructor; simpl; intuition congruence.
  - reflexivity.
  - intros [i j] [Hi Hj] Hni. exfalso. apply Hni.
    simpl in Hi, Hj. assert (i = 0%nat) by lia. subst i. simpl in Hj.
    destruct j as [| [| j]]; simpl; [tauto | tauto | simpl in Hj; lia].
  - reflexivity.
Defined.

(** * Further properties *)

(** ** More on RMSE *)

Lemma zip_with_swap {A B C} (f : A -> B -> C) a b :
  zip_with f a b = zip_with (fun y x => f x y) b a.
Proof.
  revert b. induction a as [| x a IH]; intros [| y b]; simpl;
    try reflexivity.
  now rewrite IH.
Qed.

Lemma broadcast_swap f a b :
  broadcast f a b = broadcast (fun y x => f x y) b a.
Proof.
  unfold broadcast. rewrite (Nat.eqb_sym (length b) (length a)).
  destruct (Nat.eqb (length a) (length b)) eqn:E.
  - f_equal. apply zip_with_swap.
  - destruct a as [| x [| x' a]], b as [| y [| y' b]]; simpl in E;
      try discriminate; reflexivity.
Qed.

Lemma broadcast_ext f g a b :
  (forall x y, f x y = g x y) -> broadcast f a b = broadcast g a b.
Proof.
  intros H. unfold broadcast.
  assert (Hz : zip_with f a b = zip_with g a b).
  { revert b. induction a as [| x a IH]; intros [| y b]; simpl;
      try reflexivity. now rewrite H, IH. }
  rewrite Hz.
  destruct (Nat.eqb (length a) (length b)); [reflexivity |].
  destruct a as [| x [| x' a]], b as [| y [| y' b]]; try reflexivity;
    f_equal; apply map_ext; intros; apply H.
Qed.

Lemma broadcast_map_result f (h : tfloat -> tfloat) a b :
  broadcast (fun x y => h (f x y)) a b = option_map (map h) (broadcast f a b).
Proof.
  unfold broadcast.
  assert (Hz : zip_with (fun x y => h (f x y)) a b = map h (zip_with f a b)).
  { revert b. induction a as [| x a IH]; intros [| y b]; simpl;
      try reflexivity. now rewrite IH. }
  rewrite Hz.
  destruct (Nat.eqb (length a) (length b)); [reflexivity |].
  destruct a as [| x [| x' a]], b as [| y [| y' b]]; simpl;
    try reflexivity; now rewrite ?map_map.
Qed.

Lemma f_sub_swap a b : f_sub b a = f_neg (f_sub a b).
Proof.
  unfold f_sub. destruct a, b; simpl; try reflexivity. f_equal. lra.
Qed.

Lemma f_square_f_neg a : f_square (f_neg a) = f_square a.
Proof.
  unfold f_square. destruct a; simpl; try reflexivity. f_equal. lra.
Qed.

(** X1. The RMSE loss does not change when its two tensors are exchanged,
    whatever their values and shapes (an error stays an error). *)
Theorem rmse_symmetric (p i : Tensor1) (kwargs kwargs' : Kwargs) :
  RMSELossGraph.loss_graph p i kwargs = RMSELossGraph.loss_graph i p kwargs'.
Proof.
  unfold RMSELossGraph.loss_graph, sub.
  rewrite (broadcast_swap f_sub p i).
  rewrite (broadcast_ext (fun y x => f_sub x y) (fun y x => f_neg (f_sub y x)))
    by (intros; apply f_sub_swap).
  rewrite broadcast_map_result.
  destruct (broadcast f_sub i p) as [d |]; [| reflexivity].
  cbn [option_map bind]. do 2 f_equal.
  unfold reduce_mean, square. rewrite !map_map, length_map, length_map.
  do 2 f_equal. apply map_ext. intros x. symmetry. apply f_square_f_neg.
Qed.

(** X2. The RMSE loss raises exactly when the two serial tensors have
    different lengths and neither has a single element. *)
Theorem rmse_raises_iff (p i : Tensor1) (kwargs : Kwargs) :
  RMSELossGraph.loss_graph p i kwargs = None <->
  length p <> length i /\ length p <> 1%nat /\ length i <> 1%nat.
Proof.
  unfold RMSELossGraph.loss_graph, sub, broadcast.
  destruct (Nat.eqb (length i) (length p)) eqn:E.
  - apply Nat.eqb_eq in E. cbn [bind]. split; [discriminate |].
    intros [H _]. congruence.
  - apply Nat.eqb_neq in E.
    destruct i as [| y [| y' i]], p as [| x [| x' p]]; simpl in *;
      cbn [bind]; (split; [try discriminate; intros _ | intros (? & ? & ?)]);
      try lia; try congruence; try (repeat split; lia).
Qed.

Lemma rmse_raises_iff_witness :
  RMSELossGraph.loss_graph [Fin 1; Fin 2] [Fin 1; Fin 2; Fin 3] [] = None.
Proof.
  apply (proj2 (rmse_raises_iff [Fin 1; Fin 2] [Fin 1; Fin 2; Fin 3] [])).
  simpl. repeat split; lia.
Defined.

(** X3. A prediction tensor of one element is broadcast: the loss is that of
    the element repeated once per interaction. *)
Theorem rmse_broadcasts_single_prediction (x : tfloat) (i : Tensor1)
  (kwargs : Kwargs) :
  RMSELossGraph.loss_graph [x] i kwargs =
  RMSELossGraph.loss_graph (repeat x (length i)) i kwargs.
Proof.
  unfold RMSELossGraph.loss_graph, sub, broadcast.
  rewrite repeat_length, Nat.eqb_refl.
  assert (Hz : forall l, zip_with f_sub l (repeat x (length l)) =
                         map (fun y => f_sub y x) l).
  { induction l as [| y l IH]; simpl; [reflexivity | now rewrite IH]. }
  rewrite Hz.
  destruct i as [| y [| y' i]]; reflexivity.
Qed.

Lemma broadcast_sub_shift c (a b : list R) :
  broadcast f_sub (of_reals (shift c a)) (of_reals (shift c b)) =
  broadcast f_sub (of_reals a) (of_reals b).
Proof.
  unfold broadcast, shift, of_reals. rewrite !length_map.
  assert (Hxy : forall x y, f_sub (Fin (x + c)) (Fin (y + c)) =
                            f_sub (Fin x) (Fin y)).
  { intros x y. unfold f_sub. simpl. f_equal. lra. }
  assert (Hz : forall a b : list R,
             zip_with f_sub (map Fin (map (fun x => x + c) a))
                      (map Fin (map (fun x => x + c) b)) =
             zip_with f_sub (map Fin a) (map Fin b)).
  { induction a0 as [| x a0 IH]; intros [| y b0]; cbn [zip_with map];
      try reflexivity.
    now rewrite IH, Hxy. }
  rewrite Hz.
  destruct (Nat.eqb (length a) (length b)); [reflexivity |].
  destruct a as [| x [| x' a]], b as [| y [| y' b]]; try reflexivity;
    cbn [map]; rewrite ?Hxy; f_equal; f_equal;
    rewrite ?map_map; try (f_equal; rewrite ?map_map);
    apply map_ext; intros; apply Hxy.
Qed.

(** X4. Adding the same constant to every prediction and every interaction
    leaves the RMSE loss unchanged. *)
Theorem rmse_translation_invariant (c : R) (p i : list R) (kwargs : Kwargs) :
  RMSELossGraph.loss_graph (of_reals (shift c p)) (of_reals (shift c i))
                           kwargs =
  RMSELossGraph.loss_graph (of_reals p) (of_reals i) kwargs.
Proof.
  unfold RMSELossGraph.loss_graph, sub. now rewrite broadcast_sub_shift.
Qed.

(** ** More on RMSE over the dense grid *)

Lemma in_range_dec rs ij : {in_range rs ij} + {~ in_range rs ij}.
Proof.
  unfold in_range.
  destruct (lt_dec (fst ij) (length rs));
    destruct (lt_dec (snd ij) (length (nth (fst ij) rs []))); tauto.
Qed.

Lemma update_nth_none {A} (f : A -> option A) n (l : list A) :
  match nth_error l n with
  | Some x => f x = None
  | None => True
  end ->
  update_nth f n l = None.
Proof.
  revert l. induction n as [| n IH]; intros [| a l] H; simpl in *;
    try reflexivity.
  - now rewrite H.
  - now rewrite IH.
Qed.

Lemma update_entry_out_of_range (g : R -> R) ij rs :
  ~ in_range rs ij -> update_entry g ij rs = None.
Proof.
  intros H. unfold update_entry. apply update_nth_none.
  destruct (nth_error rs (fst ij)) as [r |] eqn:Hr; [| exact I].
  apply update_nth_none.
  destruct (nth_error r (snd ij)) as [x |] eqn:Hx; [| exact I].
  exfalso. apply H. split.
  - apply nth_error_Some. congruence.
  - rewrite (nth_error_nth rs (fst ij) [] Hr).
    apply nth_error_Some. congruence.
Qed.

Lemma scatter_in_range (es : list ((nat * nat) * R)) :
  forall rs,
    Forall (in_range rs) (map fst es) ->
    exists E,
      scatter Rplus rs es = Some E /\
      length E = length rs /\
      (forall c, Forall (fun r => length r = c) rs ->
                 Forall (fun r => length r = c) E).
Proof.
  induction es as [| [ij v] es IH]; intros rs Hr.
  - exists rs. repeat split; auto.
  - cbn [map fst] in Hr. inversion Hr as [| ? ? Hij Hr']; subst.
    destruct (update_entry_spec (fun x => x + v) ij rs Hij)
      as (rs1 & Hu & Hlen & Hrow & _ & _ & _ & Hshape).
    assert (Hr1 : Forall (in_range rs1) (map fst es)).
    { eapply Forall_impl; [| exact Hr'].
      intros ij'. now apply in_range_shape. }
    destruct (IH rs1 Hr1) as (E & HE & HlenE & HshapeE).
    exists E. cbn [scatter]. rewrite Hu. cbn [bind].
    split; [exact HE |]. split; [congruence |].
    intros c Hc. now apply HshapeE, Hshape.
Qed.

Lemma scatter_out_of_range (es : list ((nat * nat) * R)) :
  forall rs,
    ~ Forall (in_range rs) (map fst es) -> scatter Rplus rs es = None.
Proof.
  induction es as [| [ij v] es IH]; intros rs Hr.
  - exfalso. apply Hr. constructor.
  - cbn [scatter]. cbn [map fst] in Hr.
    destruct (in_range_dec rs ij) as [Hij | Hij].
    + destruct (update_entry_spec (fun x => x + v) ij rs Hij)
        as (rs1 & Hu & Hlen & Hrow & _).
      rewrite Hu. cbn [bind]. apply IH. intros Hr1. apply Hr.
      constructor; [exact Hij |].
      eapply Forall_impl; [| exact Hr1].
      intros ij'. apply in_range_shape; [congruence |].
      intros k. now rewrite Hrow.
    + now rewrite update_entry_out_of_range.
Qed.

Lemma negated_rows_of_reals (prows : list (list R)) :
  map (map (f_mul (Fin (-1)))) (map of_reals prows) =
  map of_reals (map (map (Rmult (-1))) prows).
Proof.
  rewrite !map_map. apply map_ext. intros r.
  unfold of_reals. now rewrite !map_map.
Qed.

Lemma squared_rows_of_reals (E : list (list R)) :
  concat (map (map f_square) (map of_reals E)) = of_reals (map sq (concat E)).
Proof.
  unfold of_reals. rewrite !concat_map, !map_map. f_equal.
  apply map_ext. intros r. now rewrite !map_map.
Qed.

(** The dense loss in terms of the scattered error matrix. *)
Lemma rmse_dense_scatter c prows idx vals (kwargs : Kwargs) :
  length idx = length vals ->
  RMSEDenseLossGraph.loss_graph
    (sparse_of_reals idx vals (length prows, c)) (dense_of_reals c prows)
    kwargs =
  match scatter Rplus (map (map (Rmult (-1))) prows) (combine idx vals) with
  | Some E =>
      Some (f_sqrt (f_div (Fin (sumsq E)) (Fin (INR (length (concat E))))))
  | None => None
  end.
Proof.
  intros Hlen.
  unfold RMSEDenseLossGraph.loss_graph, sparse_add.
  cbn [indices values dense_shape sparse_of_reals fst snd].
  unfold n_rows. cbn [rows n_cols scalar_mul_dense dense_of_reals].
  rewrite length_of_reals, Hlen, !length_map, !Nat.eqb_refl.
  cbn [negb andb].
  rewrite negated_rows_of_reals, combine_of_reals, scatter_add_of_reals.
  destruct (scatter Rplus _ _) as [E |]; [| reflexivity].
  cbn [option_map bind]. do 2 f_equal.
  unfold reduce_mean_dense, reduce_mean, flatten, square_dense.
  cbn [rows]. rewrite squared_rows_of_reals.
  now rewrite reduce_sum_of_reals, length_of_reals, length_map,
    Rsum_sq_concat.
Qed.

(** X7. With a sparse tensor of the shape of the prediction matrix, the
    dense RMSE loss raises exactly when a stored index lies outside the
    matrix. *)
Theorem rmse_dense_raises_iff c prows idx vals (kwargs : Kwargs) :
  length idx = length vals ->
  (RMSEDenseLossGraph.loss_graph
     (sparse_of_reals idx vals (length prows, c)) (dense_of_reals c prows)
     kwargs = None <->
   ~ Forall (in_range prows) idx).
Proof.
  intros Hlen. rewrite rmse_dense_scatter by exact Hlen.
  assert (Hfst : map fst (combine idx vals) = idx)
    by now apply map_fst_combine.
  split.
  - intros Hnone Hr.
    destruct (scatter_in_range (combine idx vals)
                (map (map (Rmult (-1))) prows)) as (E & HE & _).
    + rewrite Hfst. eapply Forall_impl; [| exact Hr].
      intros ij. apply in_range_negated.
    + rewrite HE in Hnone. discriminate.
  - intros Hr. rewrite scatter_out_of_range; [reflexivity |].
    rewrite Hfst. intros Hn. apply Hr.
    eapply Forall_impl; [| exact Hn]. intros ij. apply in_range_negated.
Qed.

Lemma rmse_dense_raises_iff_witness :
  RMSEDenseLossGraph.loss_graph
    (sparse_of_reals [(5, 5)%nat] [1] (length [[0; 0]], 2%nat))
    (dense_of_reals 2 [[0; 0]]) [] = None.
Proof.
  apply (proj2 (rmse_dense_raises_iff 2 [[0; 0]] [(5, 5)%nat] [1] []
                                      eq_refl)).
  intros H. inversion H as [| ? ? [Hi _] _]; subst. simpl in Hi. lia.
Defined.

Lemma sumsq_nonneg rs : 0 <= sumsq rs.
Proof.
  rewrite <- Rsum_sq_concat. apply Rsum_sq_nonneg.
Qed.

(** X8. On a non-empty, well-shaped grid of finite numbers with every
    stored index inside it (repeated indices allowed), the dense RMSE loss
    does not raise and is never negative and never NaN: a number >= 0, or
    +inf. *)
Theorem rmse_dense_non_negative c prows idx vals (kwargs : Kwargs) :
  well_shaped (dense_of_reals c prows) ->
  length idx = length vals ->
  Forall (in_range prows) idx ->
  prows <> [] -> (0 < c)%nat ->
  exists x,
    RMSEDenseLossGraph.loss_graph
      (sparse_of_reals idx vals (length prows, c)) (dense_of_reals c prows)
      kwargs = Some x /\ non_negative x.
Proof.
  intros Hshape Hlen Hr Hrows Hc.
  apply well_shaped_of_reals in Hshape.
  rewrite rmse_dense_scatter by exact Hlen.
  destruct (scatter_in_range (combine idx vals)
              (map (map (Rmult (-1))) prows)) as (E & HE & HlenE & HshapeE).
  { rewrite map_fst_combine by exact Hlen.
    eapply Forall_impl; [| exact Hr]. intros ij. apply in_range_negated. }
  rewrite HE.
  assert (Hcells : length (concat E) = (length prows * c)%nat).
  { rewrite (length_concat_shaped c).
    - now rewrite HlenE, length_map.
    - apply HshapeE. rewrite Forall_map.
      eapply Forall_impl; [| exact Hshape].
      intros r Hrc. cbv beta. now rewrite length_map. }
  assert (Hn : 0 < INR (length (concat E))).
  { rewrite Hcells. apply lt_0_INR.
    destruct prows; [congruence |]. simpl. lia. }
  rewrite f_div_pos by exact Hn.
  assert (Hm : 0 <= sumsq E / INR (length (concat E))).
  { apply Rmult_le_pos; [apply sumsq_nonneg |].
    left. now apply Rinv_0_lt_compat. }
  rewrite f_sqrt_nonneg by exact Hm.
  eexists. split; [reflexivity | apply sqrt_pos].
Qed.

Lemma rmse_dense_non_negative_witness :
  exists x,
    RMSEDenseLossGraph.loss_graph
      (sparse_of_reals [(0, 1)%nat; (0, 1)%nat] [1; 2] (length [[0; 0]], 2%nat))
      (dense_of_reals 2 [[0; 0]]) [] = Some x /\ non_negative x.
Proof.
  apply (rmse_dense_non_negative 2 [[0; 0]] [(0, 1)%nat; (0, 1)%nat] [1; 2] []).
  - repeat constructor.
  - reflexivity.
  - repeat constructor; simpl; lia.
  - discriminate.
  - lia.
Defined.

Lemma f_square_negated x :
  f_square (f_mul (Fin (-1)) x) = f_square (f_sub (Fin 0) x).
Proof.
  assert (Hs : Rsign (-1) = Neg) by (unfold Rsign;
    destruct (total_order_T (-1) 0) as [[H | H] | H]; try reflexivity; lra).
  unfold f_square, f_sub. destruct x; simpl; rewrite ?Hs; simpl;
    try reflexivity.
  f_equal. lra.
Qed.

(** X9. With no stored interaction the dense RMSE loss is the RMSE loss of
    the flattened predictions against interactions that are all 0. *)
Theorem rmse_dense_without_interactions (t : DenseTensor)
  (kwargs kwargs' : Kwargs) :
  RMSEDenseLossGraph.loss_graph (mkSparse [] [] (n_rows t, n_cols t)) t
                                kwargs =
  RMSELossGraph.loss_graph (flatten t) (map (fun _ => Fin 0) (flatten t))
                           kwargs'.
Proof.
  unfold RMSEDenseLossGraph.loss_graph, RMSELossGraph.loss_graph,
    sparse_add, sub, broadcast.
  cbn [indices values dense_shape fst snd length combine].
  unfold n_rows. cbn [rows n_cols scalar_mul_dense].
  rewrite !length_map, !Nat.eqb_refl. cbn [negb andb scatter_add scatter bind].
  do 2 f_equal.
  unfold reduce_mean_dense, reduce_mean, flatten, square_dense, square.
  cbn [rows].
  assert (Hz : forall l : list tfloat,
             zip_with f_sub (map (fun _ => Fin 0) l) l =
             map (f_sub (Fin 0)) l).
  { induction l as [| x l IH]; simpl; [reflexivity | now rewrite IH]. }
  rewrite Hz.
  assert (Hc : concat (map (map f_square)
                           (map (map (f_mul (Fin (-1)))) (rows t))) =
               map f_square (map (f_sub (Fin 0)) (concat (rows t)))).
  { rewrite !concat_map, !map_map. f_equal. apply map_ext. intros r.
    rewrite !map_map. apply map_ext. intros x. apply f_square_negated. }
  now rewrite Hc.
Qed.

Lemma samples_fit_grid c prows (idx : list (nat * nat)) :
  Forall (fun r => length r = c) prows ->
  NoDup idx -> Forall (in_range prows) idx ->
  (length idx <= length prows * c)%nat.
Proof.
  intros Hshape Hnd Hr.
  replace (length prows * c)%nat
    with (length (list_prod (seq 0 (length prows)) (seq 0 c)))
    by (now rewrite length_prod, !length_seq).
  apply NoDup_incl_length; [exact Hnd |].
  intros [u v] Hin. rewrite Forall_forall in Hr, Hshape.
  destruct (Hr _ Hin) as [Hu Hv]. cbn [fst snd] in Hu, Hv.
  rewrite (Hshape (nth u prows [])) in Hv by now apply nth_In.
  apply in_prod; apply in_seq; lia.
Qed.

(** X10. When the stored entries are exactly the serial samples and the
    predictions are 0 elsewhere, the dense RMSE loss is at most the serial
    RMSE loss. *)
Theorem rmse_dense_at_most_serial c prows idx vals p_serial
  (kwargs kwargs' : Kwargs) :
  well_shaped (dense_of_reals c prows) ->
  length idx = length vals ->
  NoDup idx ->
  idx <> [] ->
  gather_nd (dense_of_reals c prows) idx = Some (of_reals p_serial) ->
  (forall ij, in_range prows ij -> ~ In ij idx -> real_entry prows ij = 0) ->
  exists d s,
    RMSEDenseLossGraph.loss_graph
      (sparse_of_reals idx vals (length prows, c)) (dense_of_reals c prows)
      kwargs = Some (Fin d) /\
    RMSELossGraph.loss_graph (of_reals p_serial) (of_reals vals) kwargs' =
    Some (Fin s) /\
    d <= s.
Proof.
  intros Hshape Hlen Hnd Hne Hg Hz.
  apply well_shaped_of_reals in Hshape.
  destruct (gather_nd_some _ _ _ _ Hg) as [Hr Hp].
  pose proof (samples_fit_grid c prows idx Hshape Hnd Hr) as Hfit.
  assert (Hn : 0 < INR (length idx)).
  { destruct idx; [congruence |]. apply lt_0_INR. simpl. lia. }
  assert (HN : INR (length idx) <= INR (length prows * c))
    by now apply le_INR.
  set (S := Rsum (map sq (zip_with Rminus vals p_serial))).
  assert (HS : 0 <= S) by apply Rsum_sq_nonneg.
  assert (Hinv : / INR (length prows * c) <= / INR (length idx))
    by (apply Rinv_le_contravar; lra).
  assert (Hi1 : 0 < / INR (length idx)) by now apply Rinv_0_lt_compat.
  assert (Hi2 : 0 < / INR (length prows * c))
    by (apply Rinv_0_lt_compat; lra).
  exists (sqrt (S / INR (length prows * c))), (sqrt (S / INR (length idx))).
  split; [| split].
  - rewrite rmse_dense_loss_graph_reals by assumption.
    rewrite <- Hp. fold S. rewrite f_div_pos by lra.
    rewrite f_sqrt_nonneg; [reflexivity |]. unfold Rdiv. nra.
  - rewrite rmse_serial_loss_graph_reals
      by (rewrite Hp, length_map; exact Hlen).
    fold S. rewrite <- Hlen. rewrite f_div_pos by lra.
    rewrite f_sqrt_nonneg; [reflexivity |]. unfold Rdiv. nra.
  - apply sqrt_le_1_alt. unfold Rdiv. nra.
Qed.

Lemma rmse_dense_at_most_serial_witness :
  exists d s,
    RMSEDenseLossGraph.loss_graph
      (sparse_of_reals [(0, 0)%nat] [1] (length [[5; 0]], 2%nat))
      (dense_of_reals 2 [[5; 0]]) [] = Some (Fin d) /\
    RMSELossGraph.loss_graph (of_reals [5]) (of_reals [1]) [] =
    Some (Fin s) /\
    d <= s.
Proof.
  apply (rmse_dense_at_most_serial 2 [[5; 0]] [(0, 0)%nat] [1] [5] [] []).
  - repeat constructor.
  - reflexivity.
  - repeat constructor. simpl. tauto.
  - discriminate.
  - reflexivity.
  - intros [i j] [Hi Hj] Hni. simpl in Hi, Hj.
    assert (i = 0%nat) by lia. subst i. simpl in Hj.
    destruct j as [| [| j]]; [exfalso; apply Hni; now left | reflexivity |].
    simpl in Hj. lia.
Defined.

(** ** More on WMRB *)

Lemma greater_same_signs vals vals' :
  same_signs vals vals' ->
  greater (of_reals vals) (Fin 0) = greater (of_reals vals') (Fin 0).
Proof.
  induction 1 as [| x y l l' Hxy _ IH]; [reflexivity |].
  unfold greater, of_reals in *. cbn [map]. rewrite IH. f_equal.
  cbn [f_gt]. destruct (Rlt_dec 0 x), (Rlt_dec 0 y); try reflexivity; tauto.
Qed.

(** X17. The WMRB loss ignores the magnitude of the interactions: two value
    vectors that are strictly positive at the same positions give the same
    result. *)
Theorem wmrb_magnitude_ignored (tf_prediction : DenseTensor)
  (idx : list (nat * nat)) (vals vals' : list R) (shape : nat * nat)
  (tf_sample_predictions : DenseTensor) (kwargs : Kwargs) :
  same_signs vals vals' ->
  WMRBLossGraph.loss_graph tf_prediction (sparse_of_reals idx vals shape)
                           tf_sample_predictions kwargs =
  WMRBLossGraph.loss_graph tf_prediction (sparse_of_reals idx vals' shape)
                           tf_sample_predictions kwargs.
Proof.
  intros Hs. unfold WMRBLossGraph.loss_graph.
  cbn [indices values sparse_of_reals].
  now rewrite (greater_same_signs vals vals' Hs).
Qed.

Lemma wmrb_magnitude_ignored_witness :
  WMRBLossGraph.loss_graph (dense_of_reals 1 [[1]; [2]])
                           (sparse_of_reals [(0, 0); (1, 0)]%nat [1; -1]
                                            (2, 1)%nat)
                           (dense_of_reals 1 [[3]; [4]]) [] =
  WMRBLossGraph.loss_graph (dense_of_reals 1 [[1]; [2]])
                           (sparse_of_reals [(0, 0); (1, 0)]%nat [5; 0]
                                            (2, 1)%nat)
                           (dense_of_reals 1 [[3]; [4]]) [].
Proof.
  apply wmrb_magnitude_ignored.
  repeat constructor; lra.
Defined.

Lemma no_positive_pairs idx vals :
  Forall (fun v => v <= 0) vals -> positive_pairs idx vals = [].
Proof.
  unfold positive_pairs. intros H. revert idx.
  induction H as [| v vals Hv _ IH]; intros [| ij idx]; try reflexivity.
  cbn [combine filter snd]. unfold is_positive at 1.
  destruct (Rlt_dec 0 v); [lra | apply IH].
Qed.

(** X18. When no stored interaction is strictly positive the WMRB loss is
    the empty vector, whatever the predictions, the samples and the stored
    indices are. *)
Theorem wmrb_no_positive_interaction (tf_prediction : DenseTensor)
  (idx : list (nat * nat)) (vals : list R) (shape : nat * nat)
  (tf_sample_predictions : DenseTensor) (kwargs : Kwargs) :
  length idx = length vals ->
  Forall (fun v => v <= 0) vals ->
  WMRBLossGraph.loss_graph tf_prediction (sparse_of_reals idx vals shape)
                           tf_sample_predictions kwargs = Some [].
Proof.
  intros Hlen Hv. unfold WMRBLossGraph.loss_graph.
  cbn [indices values sparse_of_reals].
  rewrite mask_positive_pairs by exact Hlen.
  fold (positive_pairs idx vals). rewrite no_positive_pairs by exact Hv.
  reflexivity.
Qed.

Lemma wmrb_no_positive_interaction_witness :
  WMRBLossGraph.loss_graph (dense_of_reals 1 [[1]; [2]])
                           (sparse_of_reals [(0, 0); (7, 7)]%nat [0; -1]
                                            (2, 1)%nat)
                           (dense_of_reals 1 [[3]; [4]]) [] = Some [].
Proof.
  apply wmrb_no_positive_interaction; [reflexivity |].
  repeat constructor; lra.
Defined.

Lemma traverse_none {A B} (f : A -> option B) (l : list A) :
  Exists (fun x => f x = None) l -> traverse f l = None.
Proof.
  induction 1 as [x l Hx | x l _ IH]; cbn [traverse].
  - now rewrite Hx.
  - rewrite IH. destruct (f x); reflexivity.
Qed.

Lemma entry_out_of_range c rs ij :
  ~ in_range rs ij -> entry (dense_of_reals c rs) ij = None.
Proof.
  intros H. destruct (entry (dense_of_reals c rs) ij) as [x |] eqn:E;
    [| reflexivity].
  exfalso. apply H. eapply entry_some_in_range. exact E.
Qed.

(** X20. The WMRB loss raises exactly when a strictly positive interaction
    has an index outside the prediction matrix or a user outside the sample
    predictions; the indices of the other interactions are never read. *)
Theorem wmrb_raises_iff n prows idx vals shape k srows (kwargs : Kwargs) :
  length idx = length vals ->
  (WMRBLossGraph.loss_graph (dense_of_reals n prows)
                            (sparse_of_reals idx vals shape)
                            (dense_of_reals k srows) kwargs = None <->
   ~ Forall (fun ij => in_range prows ij /\ (fst ij < length srows)%nat)
            (positive_pairs idx vals)).
Proof.
  intros Hlen. split.
  - intros Hnone Hr. rewrite wmrb_loss_graph_reals in Hnone by assumption.
    discriminate.
  - intros Hr. unfold WMRBLossGraph.loss_graph.
    cbn [indices values sparse_of_reals].
    rewrite mask_positive_pairs by exact Hlen. cbn [bind].
    fold (positive_pairs idx vals).
    destruct (Forall_dec (in_range prows) (in_range_dec prows)
                         (positive_pairs idx vals)) as [Hin | Hout].
    + rewrite gather_nd_of_reals by exact Hin. cbn [bind].
      assert (Hu : Exists (fun ij => ~ (fst ij < length srows)%nat)
                          (positive_pairs idx vals)).
      { apply Exists_Forall_neg.
        - intros ij. lia.
        - intros Hall. apply Hr. rewrite Forall_forall in *.
          intros ij Hij. split; auto. }
      unfold gather, transpose_0. rewrite traverse_none; [reflexivity |].
      rewrite Exists_map. eapply Exists_impl; [| exact Hu].
      intros ij Hij. cbv beta in Hij |- *. apply nth_error_None.
      rewrite reduce_sum_axis1_of_reals, length_of_reals, length_map. lia.
    + unfold gather_nd. rewrite traverse_none; [reflexivity |].
      apply Exists_Forall_neg in Hout;
        [| intros ij; destruct (in_range_dec prows ij); tauto].
      eapply Exists_impl; [| exact Hout].
      intros ij Hij. now apply entry_out_of_range.
Qed.

Lemma wmrb_raises_iff_witness :
  WMRBLossGraph.loss_graph (dense_of_reals 1 [[1]; [2]])
                           (sparse_of_reals [(0, 0); (1, 3)]%nat [-1; 1]
                                            (2, 1)%nat)
                           (dense_of_reals 1 [[3]; [4]]) [] = None.
Proof.
  apply (proj2 (wmrb_raises_iff 1 [[1]; [2]] [(0, 0); (1, 3)]%nat [-1; 1]
                                (2, 1)%nat 1 [[3]; [4]] [] eq_refl)).
  decide_positive_pairs. intros H.
  inversion H as [| ? ? [[_ Hj] _] _]; subst. simpl in Hj. lia.
Defined.

(** ** The flags and the signatures *)

(** X21. A loss class declares [is_dense] exactly when its [loss_graph]
    names a dense node, and [is_sample_based] exactly when it names a sample
    node. *)
Theorem flags_announce_named_nodes (g : AbstractLossGraph) :
  In g loss_classes ->
  (is_dense g = true <->
   Exists (fun k => kind_of k = DenseNode) (named g)) /\
  (is_sample_based g = true <->
   Exists (fun k => kind_of k = SampleNode) (named g)).
Proof.
  intros Hg. unfold loss_classes in Hg. simpl in Hg.
  destruct Hg as [<- | [<- | [<- | [<- | [<- | []]]]]]; simpl;
    (split; split; intros H;
     try reflexivity; try discriminate;
     try (repeat (first [ apply Exists_cons_hd; reflexivity
                        | apply Exists_cons_tl ]); fail);
     repeat match goal with
            | H : Exists _ _ |- _ => inversion H; clear H; subst
            end; discriminate).
Qed.

Lemma flags_announce_named_nodes_witness :
  is_dense WMRBAlignmentLossGraph.self = true /\
  is_sample_based WMRBAlignmentLossGraph.self = true.
Proof.
  destruct (flags_announce_named_nodes WMRBAlignmentLossGraph.self)
    as [Hd Hs].
  - simpl. tauto.
  - split; [apply Hd | apply Hs]; simpl.
    + apply Exists_cons_hd. reflexivity.
    + apply Exists_cons_tl, Exists_cons_tl, Exists_cons_hd. reflexivity.
Defined.
